(** * Friction factors from the Colebrook-White equation

    A shallow embedding of [ColebrookWhite.py]: the residual [colebrook], its
    derivative [colebrook_deriv], the Newton-Raphson solver [newton], the data
    generation of [moody] and the per-record evaluation of the main script.

    Number model.  A Python [float] is read as a real number: arithmetic is
    exact, and a decimal literal such as [2.51] denotes that decimal.  Rounding,
    infinities and NaN are outside the model.  What the model keeps of
    Python's arithmetic is what decides control flow and failure: a division
    by zero raises [ZeroDivisionError], [math.sqrt] and [math.log10] raise
    [ValueError] outside their domain, a negative float raised to a
    fractional power is a [complex] number, [math.fabs] raises [TypeError]
    on a [complex], and [**] raises [OverflowError] when its result is too
    large for a float and gives zero when it is too small. *)

From Stdlib Require Import Reals Lra Lia ZArith List Bool.
Import ListNotations.

Open Scope R_scope.

(** ** Python values and outcomes *)

Inductive exn : Type :=
| ZeroDivisionError
| ValueError
| TypeError
| IndexError
| OverflowError
| RootNotFound.   (* Exception("Root could not found after maximum number of iterations") *)

Inductive outcome (A : Type) : Type :=
| Ok (a : A)
| Raise (e : exn)
| OutOfFuel.      (* the bound on a loop's unfolding was too small; no Python behaviour *)

Arguments Ok {A} a.
Arguments Raise {A} e.
Arguments OutOfFuel {A}.

Definition bind {A B : Type} (m : outcome A) (k : A -> outcome B) : outcome B :=
  match m with
  | Ok a => k a
  | Raise e => Raise e
  | OutOfFuel => OutOfFuel
  end.

Notation "x <- m ;; k" := (bind m (fun x => k))
  (at level 61, m at next level, right associativity).

(** The numbers this program computes with: floats, and the complex numbers
    that [**] produces from a negative base. *)
Inductive pynum : Type :=
| PFloat (x : R)
| PComplex (re im : R).

Definition re_part (a : pynum) : R :=
  match a with PFloat x => x | PComplex re _ => re end.

Definition im_part (a : pynum) : R :=
  match a with PFloat _ => 0 | PComplex _ im => im end.


(** [x / y] on floats. *)
Definition py_fdiv (x y : R) : outcome R :=
  if Req_EM_T y 0 then Raise ZeroDivisionError else Ok (x / y).

(** [math.fabs] *)
Definition py_fabs (a : pynum) : outcome R :=
  match a with
  | PFloat x => Ok (Rabs x)
  | PComplex _ _ => Raise TypeError
  end.

(** [math.sqrt] *)
Definition py_sqrt (x : R) : outcome R :=
  if Rlt_dec x 0 then Raise ValueError else Ok (sqrt x).

(** [math.log] with one argument *)
Definition py_log (x : R) : outcome R :=
  if Rle_dec x 0 then Raise ValueError else Ok (ln x).

(** [math.log10] *)
Definition py_log10 (x : R) : outcome R :=
  if Rle_dec x 0 then Raise ValueError else Ok (ln x / ln 10).

(** The range of a power.  A result of magnitude [2^1024 - 2^970] or more,
    the midpoint between the largest float and [2^1024], has no float:
    [**] raises [OverflowError].  A result of magnitude [2^-1075] or less,
    half the smallest positive float, becomes zero. *)
Definition pow_overflow : R := 2 ^ 1024 - 2 ^ 970.
Definition pow_underflow : R := / 2 ^ 1075.

Definition py_pow_range (r : R) : outcome R :=
  if Rle_dec pow_overflow (Rabs r) then Raise OverflowError
  else if Rle_dec (Rabs r) pow_underflow then Ok 0
  else Ok r.

(** The magnitudes [**] returns as they are. *)
Definition in_pow_range (r : R) : Prop := pow_underflow < Rabs r < pow_overflow.

(** [x ** y] on floats.  A zero base with a negative exponent raises; a
    negative base with a fractional exponent goes through the complex power,
    whose result in polar form has modulus [|x| ** y] and argument [pi * y];
    the power itself, or that modulus, is subject to the range of a float. *)
Definition py_pow (x y : R) : outcome pynum :=
  if Req_EM_T x 0 then
    if Rlt_dec y 0 then Raise ZeroDivisionError
    else if Req_EM_T y 0 then Ok (PFloat 1) else Ok (PFloat 0)
  else if Rlt_dec x 0 then
    if Req_EM_T y (IZR (Int_part y)) then
      r <- py_pow_range (powerRZ x (Int_part y)) ;; Ok (PFloat r)
    else
      m <- py_pow_range (Rpower (- x) y) ;;
      Ok (PComplex (m * cos (PI * y)) (m * sin (PI * y)))
  else r <- py_pow_range (Rpower x y) ;; Ok (PFloat r).

(** [a * b], [a - b], [a / b] and [abs(a)] with Python's float/complex
    coercion: the result is a float only when both operands are. *)
Definition py_mul (a b : pynum) : pynum :=
  match a, b with
  | PFloat x, PFloat y => PFloat (x * y)
  | _, _ =>
      PComplex (re_part a * re_part b - im_part a * im_part b)
               (re_part a * im_part b + im_part a * re_part b)
  end.

Definition py_sub (a b : pynum) : pynum :=
  match a, b with
  | PFloat x, PFloat y => PFloat (x - y)
  | _, _ => PComplex (re_part a - re_part b) (im_part a - im_part b)
  end.

Definition py_div (a b : pynum) : outcome pynum :=
  match a, b with
  | PFloat x, PFloat y => q <- py_fdiv x y ;; Ok (PFloat q)
  | _, _ =>
      let n := re_part b * re_part b + im_part b * im_part b in
      if Req_EM_T n 0 then Raise ZeroDivisionError
      else Ok (PComplex ((re_part a * re_part b + im_part a * im_part b) / n)
                        ((im_part a * re_part b - re_part a * im_part b) / n))
  end.

Definition py_abs (a : pynum) : R :=
  match a with
  | PFloat x => Rabs x
  | PComplex re im => sqrt (re * re + im * im)
  end.

(** ** The Equation Core *)

(** [colebrook(Fd, Re, epsD)] *)
Definition colebrook (Fd : pynum) (Re epsD : R) : outcome R :=
  a1 <- py_fabs Fd ;;
  s1 <- py_sqrt a1 ;;
  term1 <- py_fdiv 1 s1 ;;
  a2 <- py_fabs Fd ;;
  s2 <- py_sqrt a2 ;;
  term2 <- py_fdiv 2.51 (Re * s2) ;;
  term3 <- py_fdiv epsD 3.72 ;;
  l <- py_log10 (term2 + term3) ;;
  Ok (term1 + 2 * l).

(** [colebrook_deriv(Fd, Re, epsD)].  The power [Fd**(-3/2)] takes [Fd] itself,
    the square root takes [math.fabs(Fd)]. *)
Definition colebrook_deriv (Fd : pynum) (Re epsD : R) : outcome pynum :=
  term1 <- py_fdiv epsD 3.72 ;;
  a <- py_fabs Fd ;;
  s <- py_sqrt a ;;
  term2 <- py_fdiv 2.51 (Re * s) ;;
  p <- py_pow (re_part Fd) (-3/2) ;;
  l10 <- py_log 10 ;;
  q <- py_fdiv (2 * 2.51) (l10 * (term1 + term2) * Re) ;;
  Ok (py_mul (py_mul (PFloat (-0.5)) p) (PFloat (1 + q))).

(** ** The Root Solver *)

(** How one pass through the body of the [while] loop ends. *)
Inductive ctl : Type :=
| Break (x0 : pynum) (i : Z)
| Next (x0 : pynum) (i : Z).

(** The body of the loop of [newton], from the state [(x0, i)]. *)
Definition newton_body (Re epsD : R) (maxiter : Z) (tol : R)
    (x0 : pynum) (i : Z) : outcome ctl :=
  c <- colebrook x0 Re epsD ;;
  d <- colebrook_deriv x0 Re epsD ;;
  res <- py_div (PFloat c) d ;;
  let x1 := py_sub x0 res in
  let x0 := x1 in
  let i := (i + 1)%Z in
  if Rlt_dec (py_abs res) tol then Ok (Break x0 i)
  else if (i =? maxiter - 1)%Z then Raise RootNotFound
  else Ok (Next x0 i).

(** [while i < maxiter: ...] followed by [return (x0,i)].  [fuel] bounds the
    number of passes; [newton] supplies [maxiter] of them. *)
Fixpoint newton_loop (fuel : nat) (Re epsD : R) (maxiter : Z) (tol : R)
    (x0 : pynum) (i : Z) : outcome (pynum * Z) :=
  if (i <? maxiter)%Z then
    match fuel with
    | O => OutOfFuel
    | S fuel' =>
        match newton_body Re epsD maxiter tol x0 i with
        | Ok (Break x0' i') => Ok (x0', i')
        | Ok (Next x0' i') => newton_loop fuel' Re epsD maxiter tol x0' i'
        | Raise e => Raise e
        | OutOfFuel => OutOfFuel
        end
    end
  else Ok (x0, i).

(** [newton(x0, Re, epsD, maxiter, tol)] *)
Definition newton (x0 : pynum) (Re epsD : R) (maxiter : Z) (tol : R)
    : outcome (pynum * Z) :=
  x0 <- py_fabs x0 ;;
  newton_loop (Z.to_nat maxiter) Re epsD maxiter tol (PFloat x0) 0.

Definition default_maxiter : Z := 100.
Definition default_tol : R := 1e-9.

(** [newton(x0, Re, epsD)[0]], as [moody] and the main script call it. *)
Definition newton_root (x0 : pynum) (Re epsD : R) : outcome pynum :=
  r <- newton x0 Re epsD default_maxiter default_tol ;;
  Ok (fst r).

(** ** Data generation in [moody] *)

(** [range(lo, hi)] *)
Definition py_range (lo hi : Z) : list Z :=
  map (fun k => (lo + Z.of_nat k)%Z) (seq 0 (Z.to_nat (hi - lo))).

(** The laminar loop: [laminarFdVals.append(64/Re)], then
    [laminarReVals.append(Re)].  The trailing [Re += 1] rebinds the loop
    variable, which the next pass overwrites, and so leaves no trace here. *)
Fixpoint laminar_loop (range : list Z) (laminarReVals : list Z)
    (laminarFdVals : list R) : outcome (list Z * list R) :=
  match range with
  | [] => Ok (laminarReVals, laminarFdVals)
  | Re :: range' =>
      fd <- py_fdiv 64 (IZR Re) ;;
      laminar_loop range' (laminarReVals ++ [Re]) (laminarFdVals ++ [fd])
  end.

Definition laminar : outcome (list Z * list R) :=
  laminar_loop (py_range 500 2500) [] [].

(** A two-dimensional float array with its shape. *)
Record matrix : Type := Matrix {
  rows : nat;
  cols : nat;
  cell : nat -> nat -> R
}.

(** [np.zeros((r, c))] *)
Definition np_zeros (r c : nat) : matrix := Matrix r c (fun _ _ => 0).

(** [m[i, j] = v]: the index must lie in the shape, the value must be a float. *)
Definition mat_store (m : matrix) (i j : nat) (v : pynum) : outcome matrix :=
  if (i <? rows m)%nat && (j <? cols m)%nat then
    match v with
    | PFloat x =>
        Ok (Matrix (rows m) (cols m)
              (fun i' j' => if (i' =? i)%nat && (j' =? j)%nat then x else cell m i' j'))
    | PComplex _ _ => Raise TypeError
    end
  else Raise IndexError.

(** [np.linspace(start, stop, num)] for [num >= 2] *)
Definition np_linspace (start stop : R) (num : nat) : list R :=
  map (fun k => start + INR k * ((stop - start) / INR (num - 1))) (seq 0 num).

(** The inner loop [for Re in Re_range], from the state
    [(Fd_vals, Fd_guess, Re_range_index)].  The entries of [Re_range] are
    numpy floats, and so are the guesses after the first update of a solve;
    on those [**] does not raise: a negative base gives NaN where Python's
    own floats give a complex number, and a power outside the range of a
    float gives [inf] or zero.  A solve that meets a negative guess ends in
    an exception under both readings, and only which one differs; as long
    as its guesses stay between [1e-200] and [1e200], a run that returns is
    the same under both. *)
Fixpoint curve_loop (Re_range : list R) (epsD : R) (epsD_index : nat)
    (Fd_vals : matrix) (Fd_guess : pynum) (Re_range_index : nat)
    : outcome (matrix * pynum) :=
  match Re_range with
  | [] => Ok (Fd_vals, Fd_guess)
  | Re :: Re_range' =>
      v <- newton_root Fd_guess Re epsD ;;
      Fd_vals <- mat_store Fd_vals Re_range_index epsD_index v ;;
      current_Fd <- newton_root Fd_guess Re epsD ;;
      let Fd_guess := current_Fd in
      curve_loop Re_range' epsD epsD_index Fd_vals Fd_guess (S Re_range_index)
  end.

(** The outer loop [for epsD in epsDvals], from the state
    [(Fd_vals, Fd_guess, epsD_index)].  [Fd_guess] is not reset between
    curves. *)
Fixpoint curves_loop (epsDvals : list R) (Re_range : list R)
    (Fd_vals : matrix) (Fd_guess : pynum) (epsD_index : nat)
    : outcome (matrix * pynum) :=
  match epsDvals with
  | [] => Ok (Fd_vals, Fd_guess)
  | epsD :: epsDvals' =>
      st <- curve_loop Re_range epsD epsD_index Fd_vals Fd_guess 0 ;;
      curves_loop epsDvals' Re_range (fst st) (snd st) (S epsD_index)
  end.

(** The turbulent block of [moody] for a tuple of roughness values and a
    tuple of Reynolds numbers: the zero matrix, the first guess [0.01] and
    the two nested loops. *)
Definition turbulent_data (epsDvals Re_range : list R) : outcome (matrix * pynum) :=
  let Fd_vals := np_zeros (length Re_range) (length epsDvals) in
  let epsD_index := 0%nat in
  let Fd_guess := PFloat 0.01 in
  curves_loop epsDvals Re_range Fd_vals Fd_guess epsD_index.

Definition epsDvals : list R := [0; / 10 ^ 6; / 10 ^ 5; / 10 ^ 4; / 10 ^ 3; / 10 ^ 2].
Definition dataPointNum : nat := Z.to_nat 50000.
Definition Re_range : list R := np_linspace 2000 (10 ^ 8) dataPointNum.


(** ** The main script, one input record *)

(** Lines 128 to 133: the regime switch. *)
Definition friction_factor (Re epsD : R) : outcome pynum :=
  if Rle_dec Re 2040 then
    Fd <- py_fdiv 64 Re ;; Ok (PFloat Fd)
  else
    newton_root (PFloat 0.01) Re epsD.

(** Lines 126 to 135 for the five fields of a record; the result is the point
    [(Re, Fd)] and the pressure loss. *)
Definition process_record (diameter velocity density viscosity roughness : R)
    : outcome (R * pynum * pynum) :=
  Re <- py_fdiv (diameter * velocity * density) viscosity ;;
  r <- py_fdiv roughness 1000 ;;
  epsD <- py_fdiv r diameter ;;
  Fd <- friction_factor Re epsD ;;
  v2 <- py_pow velocity 2 ;;
  pressureLoss <- py_div (py_mul Fd (py_mul (PFloat density) v2))
                         (PFloat (2 * diameter)) ;;
  Ok (Re, Fd, pressureLoss).

(** ** Closed forms used in the statements *)

Definition log10 (x : R) : R := ln x / ln 10.

(** The value [colebrook] computes, as a real function of its arguments. *)
Definition colebrook_value (f Re epsD : R) : R :=
  1 / sqrt (Rabs f) + 2 * log10 (2.51 / (Re * sqrt (Rabs f)) + epsD / 3.72).

(** The value [colebrook_deriv] computes at a positive [f] whose power is
    inside the range of a float. *)
Definition colebrook_deriv_value (f Re epsD : R) : R :=
  -0.5 * Rpower f (-3/2) *
  (1 + (2 * 2.51) / (ln 10 * (epsD / 3.72 + 2.51 / (Re * sqrt (Rabs f))) * Re)).

(** The argument of the logarithm in [colebrook]. *)
Definition log_arg (f Re epsD : R) : R :=
  2.51 / (Re * sqrt (Rabs f)) + epsD / 3.72.


(** The loop-head states of a call [newton(x0, Re, epsD, maxiter, tol)]: the
    state at the first evaluation of [i < maxiter], and the state after each
    pass through the body that neither breaks nor raises. *)
Inductive newton_reaches (x0 : pynum) (Re epsD : R) (maxiter : Z) (tol : R)
    : pynum -> Z -> Prop :=
| reaches_entry a :
    py_fabs x0 = Ok a ->
    newton_reaches x0 Re epsD maxiter tol (PFloat a) 0
| reaches_next x i x' i' :
    newton_reaches x0 Re epsD maxiter tol x i ->
    (i < maxiter)%Z ->
    newton_body Re epsD maxiter tol x i = Ok (Next x' i') ->
    newton_reaches x0 Re epsD maxiter tol x' i'.

(** [iterates Re epsD tol a n x]: starting from the guess [a], [n] updates
    [x <- x - colebrook(x,Re,epsD)/colebrook_deriv(x,Re,epsD)] were computed,
    none with a step below [tol], and the current guess is [x]. *)
Inductive iterates (Re epsD tol : R) (a : pynum) : nat -> pynum -> Prop :=
| iterates_O : iterates Re epsD tol a 0 a
| iterates_S n x c d res :
    iterates Re epsD tol a n x ->
    colebrook x Re epsD = Ok c ->
    colebrook_deriv x Re epsD = Ok d ->
    py_div (PFloat c) d = Ok res ->
    ~ py_abs res < tol ->
    iterates Re epsD tol a (S n) (py_sub x res).

(** The same on floats, with the arithmetic written out: [n] updates
    [x <- x - c / d], where [c] is the float [colebrook] returns at [x] and
    [d] the nonzero float [colebrook_deriv] returns there, none with
    [|c / d|] below [tol]. *)
Inductive float_iterates (Re epsD tol : R) (a : R) : nat -> R -> Prop :=
| float_iterates_O : float_iterates Re epsD tol a 0 a
| float_iterates_S n x c d :
    float_iterates Re epsD tol a n x ->
    colebrook (PFloat x) Re epsD = Ok c ->
    colebrook_deriv (PFloat x) Re epsD = Ok (PFloat d) ->
    d <> 0 ->
    ~ Rabs (c / d) < tol ->
    float_iterates Re epsD tol a (S n) (x - c / d).

(** The floats one run of the inner loop stores, in order, and the guess it
    leaves: [curve_loop] without the matrix. *)
Fixpoint curve_values (Re_range : list R) (epsD : R) (Fd_guess : pynum)
    : outcome (list R * pynum) :=
  match Re_range with
  | [] => Ok ([], Fd_guess)
  | Re :: Re_range' =>
      v <- newton_root Fd_guess Re epsD ;;
      match v with
      | PFloat x =>
          r <- curve_values Re_range' epsD v ;;
          Ok (x :: fst r, snd r)
      | PComplex _ _ => Raise TypeError
      end
  end.

(** ** The main script, the loop over the input lines *)

(** [[float(a) for a in line.strip().split()]]: a field is given as the float
    [float] makes of it, or as [None] when [float] rejects its text. *)
Fixpoint parse_fields (fields : list (option R)) : outcome (list R) :=
  match fields with
  | [] => Ok []
  | None :: _ => Raise ValueError
  | Some x :: fields' => xs <- parse_fields fields' ;; Ok (x :: xs)
  end.

(** [diameter, velocity, density, viscosity, roughness = ...]: unpacking
    needs exactly five values. *)
Definition unpack_record (xs : list R) : outcome (R * R * R * R * R) :=
  match xs with
  | [diameter; velocity; density; viscosity; roughness] =>
      Ok (diameter, velocity, density, viscosity, roughness)
  | _ => Raise ValueError
  end.

(** What has been written to [pressure_loss.txt]. *)
Inductive written : Type :=
| Header                          (* "Friction factor  | Pressure loss (Pa/m)" *)
| Newline
| Row (Fd pressureLoss : pynum).  (* the two numbers, each cut to 16 characters *)

(** The state the loop over the lines works on: the list [points] and the
    contents of the output file. *)
Definition main_state : Type := (list (R * pynum) * list written)%type.

(** Lines 124 to 136, one pass of [for line in f_in].  The state is returned
    also when the pass raises: what was appended and written before stays. *)
Definition line_body (fields : list (option R)) (st : main_state)
    : main_state * outcome unit :=
  let '(points, out) := st in
  let out := out ++ [Newline] in
  match (xs <- parse_fields fields ;; unpack_record xs) with
  | Ok (diameter, velocity, density, viscosity, roughness) =>
      match (Re <- py_fdiv (diameter * velocity * density) viscosity ;;
             r <- py_fdiv roughness 1000 ;;
             epsD <- py_fdiv r diameter ;;
             Fd <- friction_factor Re epsD ;;
             Ok (Re, Fd)) with
      | Ok (Re, Fd) =>
          let points := points ++ [(Re, Fd)] in
          match (v2 <- py_pow velocity 2 ;;
                 py_div (py_mul Fd (py_mul (PFloat density) v2))
                        (PFloat (2 * diameter))) with
          | Ok pressureLoss => ((points, out ++ [Row Fd pressureLoss]), Ok tt)
          | Raise e => ((points, out), Raise e)
          | OutOfFuel => ((points, out), OutOfFuel)
          end
      | Raise e => ((points, out), Raise e)
      | OutOfFuel => ((points, out), OutOfFuel)
      end
  | Raise e => ((points, out), Raise e)
  | OutOfFuel => ((points, out), OutOfFuel)
  end.

(** [for line in f_in] inside the [try]: the first pass that raises ends the
    loop, and the exception is then caught by one of the [except] clauses. *)
Fixpoint main_loop (lines : list (list (option R))) (st : main_state)
    : main_state * outcome unit :=
  match lines with
  | [] => (st, Ok tt)
  | fields :: lines' =>
      match line_body fields st with
      | (st', Ok _) => main_loop lines' st'
      | (st', status) => (st', status)
      end
  end.

(** The list [points] handed to [moody] after the [try] statement. *)
Definition main_points (lines : list (list (option R))) : list (R * pynum) :=
  fst (fst (main_loop lines ([], [Header]))).

(** * Properties *)

(** ** The primitive operations inside their domain *)

Lemma py_fdiv_ok (x y : R) : y <> 0 -> py_fdiv x y = Ok (x / y).
Proof.
  intros Hy. unfold py_fdiv. destruct (Req_EM_T y 0); [contradiction | reflexivity].
Qed.

Lemma py_fdiv_zero (x : R) : py_fdiv x 0 = Raise ZeroDivisionError.
Proof.
  unfold py_fdiv. destruct (Req_EM_T 0 0) as [_ | H]; [reflexivity | now elim H].
Qed.

Lemma py_fdiv_inv (x y q : R) : py_fdiv x y = Ok q -> y <> 0 /\ q = x / y.
Proof.
  unfold py_fdiv. destruct (Req_EM_T y 0); intros H; [discriminate | ].
  injection H as <-. now split.
Qed.

Lemma py_sqrt_ok (x : R) : 0 <= x -> py_sqrt x = Ok (sqrt x).
Proof.
  intros Hx. unfold py_sqrt. destruct (Rlt_dec x 0); [lra | reflexivity].
Qed.

Lemma py_sqrt_fabs (x : R) : py_sqrt (Rabs x) = Ok (sqrt (Rabs x)).
Proof. apply py_sqrt_ok, Rabs_pos. Qed.

Lemma py_log10_ok (x : R) : 0 < x -> py_log10 x = Ok (log10 x).
Proof.
  intros Hx. unfold py_log10. destruct (Rle_dec x 0); [lra | reflexivity].
Qed.

Lemma py_log10_inv (x l : R) : py_log10 x = Ok l -> 0 < x /\ l = log10 x.
Proof.
  unfold py_log10. destruct (Rle_dec x 0); intros H; [discriminate | ].
  injection H as <-. split; [lra | reflexivity].
Qed.

Lemma py_log_10 : py_log 10 = Ok (ln 10).
Proof. unfold py_log. destruct (Rle_dec 10 0); [lra | reflexivity]. Qed.

Lemma Rpower_pos (x y : R) : 0 < Rpower x y.
Proof. unfold Rpower. apply exp_pos. Qed.

(** *** The range of [**] *)

Lemma pow_overflow_big : 10 ^ 300 < pow_overflow.
Proof.
  unfold pow_overflow. rewrite !pow_IZR, <- minus_IZR. apply IZR_lt. reflexivity.
Qed.

Lemma pow_overflow_bound : pow_overflow < 10 ^ 309.
Proof.
  unfold pow_overflow. rewrite !pow_IZR, <- minus_IZR. apply IZR_lt. reflexivity.
Qed.

Lemma pow_underflow_pos : 0 < pow_underflow.
Proof. unfold pow_underflow. apply Rinv_0_lt_compat, pow_lt. lra. Qed.

Lemma pow_underflow_small : pow_underflow < / 10 ^ 300.
Proof.
  unfold pow_underflow. apply Rinv_lt_contravar.
  - apply Rmult_lt_0_compat; apply pow_lt; lra.
  - rewrite !pow_IZR. apply IZR_lt. reflexivity.
Qed.

Lemma pow_underflow_bound : / 10 ^ 324 < pow_underflow.
Proof.
  unfold pow_underflow. apply Rinv_lt_contravar.
  - apply Rmult_lt_0_compat; apply pow_lt; lra.
  - rewrite !pow_IZR. apply IZR_lt. reflexivity.
Qed.

Lemma pow_underflow_lt_1 : pow_underflow < 1.
Proof.
  pose proof pow_underflow_small.
  assert (/ 10 ^ 300 <= 1).
  { rewrite <- Rinv_1. apply Rinv_le_contravar; [lra | ]. apply pow_R1_Rle. lra. }
  lra.
Qed.

Lemma pow_overflow_gt_1 : 1 < pow_overflow.
Proof.
  pose proof pow_overflow_big.
  assert (1 <= 10 ^ 300) by (apply pow_R1_Rle; lra).
  lra.
Qed.

Lemma py_pow_range_ok (r : R) : in_pow_range r -> py_pow_range r = Ok r.
Proof.
  intros [Hlo Hhi]. unfold py_pow_range.
  destruct (Rle_dec pow_overflow (Rabs r)); [lra | ].
  destruct (Rle_dec (Rabs r) pow_underflow); [lra | reflexivity].
Qed.

Lemma py_pow_range_overflow (r : R) :
  pow_overflow <= Rabs r -> py_pow_range r = Raise OverflowError.
Proof.
  intros H. unfold py_pow_range.
  destruct (Rle_dec pow_overflow (Rabs r)); [reflexivity | lra].
Qed.

Lemma py_pow_range_underflow (r : R) :
  Rabs r <= pow_underflow -> py_pow_range r = Ok 0.
Proof.
  intros H. unfold py_pow_range.
  pose proof pow_underflow_lt_1. pose proof pow_overflow_gt_1.
  destruct (Rle_dec pow_overflow (Rabs r)); [lra | ].
  destruct (Rle_dec (Rabs r) pow_underflow); [reflexivity | lra].
Qed.

(** What [py_pow_range] can give: the exception, zero, or its argument. *)
Lemma py_pow_range_cases (r : R) :
  (pow_overflow <= Rabs r /\ py_pow_range r = Raise OverflowError) \/
  (Rabs r <= pow_underflow /\ py_pow_range r = Ok 0) \/
  (in_pow_range r /\ py_pow_range r = Ok r).
Proof.
  destruct (Rle_dec pow_overflow (Rabs r)) as [Hov | Hov].
  - left. split; [assumption | now apply py_pow_range_overflow].
  - destruct (Rle_dec (Rabs r) pow_underflow) as [Hun | Hun].
    + right; left. split; [assumption | now apply py_pow_range_underflow].
    + right; right. assert (in_pow_range r) by (unfold in_pow_range; lra).
      split; [assumption | now apply py_pow_range_ok].
Qed.

(** Magnitudes between [1e-300] and [1e300] are well inside the range. *)
Lemma in_pow_range_moderate (r : R) :
  / 10 ^ 300 <= Rabs r <= 10 ^ 300 -> in_pow_range r.
Proof.
  intros H. pose proof pow_overflow_big. pose proof pow_underflow_small.
  unfold in_pow_range. lra.
Qed.

Lemma py_pow_float (x y : R) :
  0 < x -> py_pow x y = (r <- py_pow_range (Rpower x y) ;; Ok (PFloat r)).
Proof.
  intros Hx. unfold py_pow.
  destruct (Req_EM_T x 0); [lra | ]. destruct (Rlt_dec x 0); [lra | reflexivity].
Qed.

Lemma py_pow_pos (x y : R) :
  0 < x -> in_pow_range (Rpower x y) -> py_pow x y = Ok (PFloat (Rpower x y)).
Proof.
  intros Hx Hr. rewrite py_pow_float by assumption.
  now rewrite py_pow_range_ok.
Qed.

Lemma py_pow_zero_neg (y : R) : y < 0 -> py_pow 0 y = Raise ZeroDivisionError.
Proof.
  intros Hy. unfold py_pow.
  destruct (Req_EM_T 0 0) as [_ | H]; [ | now elim H].
  destruct (Rlt_dec y 0); [reflexivity | lra].
Qed.

Lemma ln_10_pos : 0 < ln 10.
Proof. rewrite <- ln_1. apply ln_increasing; lra. Qed.

Lemma sqrt_Rabs_pos (f : R) : f <> 0 -> 0 < sqrt (Rabs f).
Proof. intros Hf. apply sqrt_lt_R0, Rabs_pos_lt, Hf. Qed.

Lemma Int_part_neg_three_halves : Int_part (-3/2) = (-2)%Z.
Proof. symmetry. apply Int_part_spec. simpl. lra. Qed.

(** A negative base under the exponent [-3/2]: the complex power lies on the
    imaginary axis. *)
Lemma py_pow_complex (x : R) :
  x < 0 ->
  py_pow x (-3/2) =
    (m <- py_pow_range (Rpower (- x) (-3/2)) ;; Ok (PComplex (m * 0) (m * 1))).
Proof.
  intros Hx. unfold py_pow.
  destruct (Req_EM_T x 0); [lra | ]. destruct (Rlt_dec x 0); [ | lra].
  rewrite Int_part_neg_three_halves.
  destruct (Req_EM_T (-3/2) (-2)); [lra | ].
  replace (PI * (-3/2)) with (- (3 * (PI / 2))) by lra.
  rewrite cos_neg, sin_neg, cos_3PI2, sin_3PI2.
  now replace (- -1) with 1 by lra.
Qed.

Lemma py_pow_neg (x : R) :
  x < 0 -> in_pow_range (Rpower (- x) (-3/2)) ->
  py_pow x (-3/2) = Ok (PComplex (Rpower (- x) (-3/2) * 0) (Rpower (- x) (-3/2) * 1)).
Proof.
  intros Hx Hr. rewrite py_pow_complex by assumption.
  now rewrite py_pow_range_ok.
Qed.

(** [f ** (-3/2)] is [1 / (f * sqrt f)] at a positive [f]. *)
Lemma Rpower_neg_three_halves (f : R) :
  0 < f -> Rpower f (-3/2) = / (f * sqrt f).
Proof.
  intros Hf.
  replace (-3/2) with (- (1 + / 2)) by lra.
  rewrite Rpower_Ropp, Rpower_plus, Rpower_1, Rpower_sqrt by assumption.
  reflexivity.
Qed.

(** [v ** 2], the square in the pressure loss. *)
Lemma py_pow_square (v : R) :
  py_pow v 2 = (r <- py_pow_range (v * v) ;; Ok (PFloat r)).
Proof.
  unfold py_pow.
  destruct (Req_EM_T v 0) as [-> | Hv0].
  - destruct (Rlt_dec 2 0); [lra | ]. destruct (Req_EM_T 2 0); [lra | ].
    rewrite py_pow_range_underflow; [reflexivity | ].
    rewrite Rmult_0_l, Rabs_R0. left. exact pow_underflow_pos.
  - assert (Hi : Int_part 2 = 2%Z) by (symmetry; apply Int_part_spec; simpl; lra).
    destruct (Rlt_dec v 0).
    + rewrite Hi. destruct (Req_EM_T 2 2); [ | lra].
      replace (powerRZ v 2) with (v * v) by (simpl; ring). reflexivity.
    + replace (Rpower v 2) with (v * v); [reflexivity | ].
      change 2 with (INR 2). rewrite Rpower_pow by lra. ring.
Qed.

Lemma sqrt_pow10 (n : nat) : sqrt (10 ^ (n + n)) = 10 ^ n.
Proof. rewrite pow_add. apply sqrt_square, pow_le. lra. Qed.

(** For a guess between [1e-200] and [1e200] the power [f ** (-3/2)] lies
    between [1e-300] and [1e300]. *)
Lemma three_halves_moderate (f : R) :
  / 10 ^ 200 <= f <= 10 ^ 200 -> / 10 ^ 300 <= Rpower f (-3/2) <= 10 ^ 300.
Proof.
  intros [Hlo Hhi].
  assert (H200 : 0 < 10 ^ 200) by (apply pow_lt; lra).
  assert (H100 : 0 < 10 ^ 100) by (apply pow_lt; lra).
  assert (Hf : 0 < f).
  { apply Rlt_le_trans with (/ 10 ^ 200); [now apply Rinv_0_lt_compat | assumption]. }
  assert (Hs1 : sqrt f <= 10 ^ 100).
  { rewrite <- (sqrt_pow10 100). apply sqrt_le_1_alt. exact Hhi. }
  assert (Hs0 : / 10 ^ 100 <= sqrt f).
  { rewrite <- (sqrt_pow10 100), <- sqrt_inv. apply sqrt_le_1_alt. exact Hlo. }
  assert (Hs : 0 < sqrt f) by now apply sqrt_lt_R0.
  assert (Hi100 : 0 < / 10 ^ 100) by now apply Rinv_0_lt_compat.
  assert (Hi200 : 0 < / 10 ^ 200) by now apply Rinv_0_lt_compat.
  rewrite Rpower_neg_three_halves by assumption.
  assert (Hp1 : f * sqrt f <= 10 ^ 300).
  { change (10 ^ 300) with (10 ^ (200 + 100)). rewrite pow_add.
    apply Rmult_le_compat; lra. }
  assert (Hp0 : / 10 ^ 300 <= f * sqrt f).
  { change (10 ^ 300) with (10 ^ (200 + 100)). rewrite pow_add, Rinv_mult.
    apply Rmult_le_compat; lra. }
  assert (Hp : 0 < f * sqrt f) by now apply Rmult_lt_0_compat.
  split.
  - apply Rinv_le_contravar; assumption.
  - rewrite <- (Rinv_inv (10 ^ 300)). apply Rinv_le_contravar; [ | assumption].
    apply Rinv_0_lt_compat, pow_lt. lra.
Qed.

Lemma three_halves_in_range (f : R) :
  / 10 ^ 200 <= f <= 10 ^ 200 -> in_pow_range (Rpower f (-3/2)).
Proof.
  intros H. apply in_pow_range_moderate.
  rewrite Rabs_pos_eq by (left; apply Rpower_pos).
  now apply three_halves_moderate.
Qed.

(** Guesses between [1e-6] and [1e6], where the solver works. *)
Lemma three_halves_in_range_6 (f : R) :
  / 10 ^ 6 <= f <= 10 ^ 6 -> in_pow_range (Rpower f (-3/2)).
Proof.
  intros [Hlo Hhi]. apply three_halves_in_range.
  assert (10 ^ 6 <= 10 ^ 200) by (apply Rle_pow; [lra | lia]).
  assert (/ 10 ^ 200 <= / 10 ^ 6).
  { apply Rinv_le_contravar; [apply pow_lt; lra | assumption]. }
  lra.
Qed.

(** [f ** (-3/2)] at [f = 1e-300] is [1e450], beyond every float. *)
Lemma three_halves_overflow : pow_overflow <= Rpower (/ 10 ^ 300) (-3/2).
Proof.
  assert (H300 : 0 < 10 ^ 300) by (apply pow_lt; lra).
  rewrite Rpower_neg_three_halves by now apply Rinv_0_lt_compat.
  rewrite sqrt_inv. change (10 ^ 300) with (10 ^ (150 + 150)) at 2.
  rewrite sqrt_pow10, <- Rinv_mult, Rinv_inv, <- pow_add.
  pose proof pow_overflow_bound.
  assert (10 ^ 309 <= 10 ^ (300 + 150)) by (apply Rle_pow; [lra | lia]).
  lra.
Qed.

(** [f ** (-3/2)] at [f = 1e300] is [1e-450], below every positive float. *)
Lemma three_halves_underflow : Rpower (10 ^ 300) (-3/2) <= pow_underflow.
Proof.
  assert (H300 : 0 < 10 ^ 300) by (apply pow_lt; lra).
  rewrite Rpower_neg_three_halves by assumption.
  change (10 ^ 300) with (10 ^ (150 + 150)) at 2.
  rewrite sqrt_pow10, <- pow_add.
  pose proof pow_underflow_bound.
  assert (/ 10 ^ (300 + 150) <= / 10 ^ 324).
  { apply Rinv_le_contravar; [apply pow_lt; lra | apply Rle_pow; [lra | lia]]. }
  lra.
Qed.


Lemma square_overflow : pow_overflow <= 10 ^ 200 * 10 ^ 200.
Proof.
  rewrite <- pow_add. pose proof pow_overflow_bound.
  assert (10 ^ 309 <= 10 ^ (200 + 200)) by (apply Rle_pow; [lra | lia]).
  lra.
Qed.

(** The three powers at which the range is left: [1e-300 ** (-3/2)] and
    [1e200 ** 2] raise, [1e300 ** (-3/2)] is [0.0]. *)
Lemma py_pow_out_of_range :
  py_pow (/ 10 ^ 300) (-3/2) = Raise OverflowError /\
  py_pow (10 ^ 300) (-3/2) = Ok (PFloat 0) /\
  py_pow (10 ^ 200) 2 = Raise OverflowError.
Proof.
  assert (H300 : 0 < 10 ^ 300) by (apply pow_lt; lra).
  assert (H200 : 0 < 10 ^ 200) by (apply pow_lt; lra).
  assert (Hi300 : 0 < / 10 ^ 300) by now apply Rinv_0_lt_compat.
  split; [ | split].
  - rewrite py_pow_float, py_pow_range_overflow; [reflexivity | | assumption].
    rewrite Rabs_pos_eq by (left; apply Rpower_pos). exact three_halves_overflow.
  - rewrite py_pow_float, py_pow_range_underflow; [reflexivity | | assumption].
    rewrite Rabs_pos_eq by (left; apply Rpower_pos). exact three_halves_underflow.
  - rewrite py_pow_square, py_pow_range_overflow; [reflexivity | ].
    rewrite Rabs_pos_eq by nra. exact square_overflow.
Qed.

(** ** The Equation Core, case by case *)

Ltac ok_step :=
  first
    [ rewrite py_sqrt_fabs
    | rewrite py_log_10
    | rewrite py_fdiv_ok by (try lra; auto)
    | rewrite py_log10_ok by (try lra; auto) ];
  cbn [bind].

Lemma log_arg_pos (f Re epsD : R) :
  f <> 0 -> 0 < Re -> 0 <= epsD -> 0 < log_arg f Re epsD.
Proof.
  intros Hf HRe Heps. unfold log_arg.
  pose proof (sqrt_Rabs_pos f Hf) as Hs.
  assert (0 < 2.51 / (Re * sqrt (Rabs f))).
  { apply Rdiv_lt_0_compat; [lra | now apply Rmult_lt_0_compat]. }
  assert (0 <= epsD / 3.72) by (apply Rle_mult_inv_pos; lra).
  lra.
Qed.

Lemma colebrook_float (f Re epsD : R) :
  f <> 0 -> Re <> 0 -> 0 < log_arg f Re epsD ->
  colebrook (PFloat f) Re epsD = Ok (colebrook_value f Re epsD).
Proof.
  intros Hf HRe Harg. pose proof (sqrt_Rabs_pos f Hf) as Hs.
  assert (Re * sqrt (Rabs f) <> 0) by (apply Rmult_integral_contrapositive_currified; lra).
  unfold colebrook. cbn [py_fabs bind].
  repeat ok_step. reflexivity.
Qed.

Lemma colebrook_float_inv (f Re epsD v : R) :
  colebrook (PFloat f) Re epsD = Ok v ->
  (f <> 0 /\ Re <> 0 /\ 0 < log_arg f Re epsD) /\ v = colebrook_value f Re epsD.
Proof.
  unfold colebrook. cbn [py_fabs bind]. rewrite py_sqrt_fabs. cbn [bind].
  destruct (py_fdiv 1 (sqrt (Rabs f))) as [t1 | | ] eqn:E1; cbn [bind]; try discriminate.
  apply py_fdiv_inv in E1 as [Hs ->].
  destruct (py_fdiv 2.51 (Re * sqrt (Rabs f))) as [t2 | | ] eqn:E2; cbn [bind]; try discriminate.
  apply py_fdiv_inv in E2 as [HRs ->].
  rewrite py_fdiv_ok by lra. cbn [bind].
  destruct (py_log10 _) as [l | | ] eqn:E3; cbn [bind]; try discriminate.
  apply py_log10_inv in E3 as [Harg ->].
  intros H. injection H as <-.
  repeat split; try assumption.
  - intros ->. apply Hs. now rewrite Rabs_R0, sqrt_0.
  - intros ->. apply HRs. ring.
Qed.

Lemma colebrook_zero (Re epsD : R) :
  colebrook (PFloat 0) Re epsD = Raise ZeroDivisionError.
Proof.
  unfold colebrook. cbn [py_fabs bind]. rewrite py_sqrt_fabs. cbn [bind].
  rewrite Rabs_R0, sqrt_0, py_fdiv_zero. reflexivity.
Qed.

Lemma colebrook_complex (re im Re epsD : R) :
  colebrook (PComplex re im) Re epsD = Raise TypeError.
Proof. reflexivity. Qed.

Lemma deriv_denominator_nonzero (f Re epsD : R) :
  f <> 0 -> 0 < Re -> 0 <= epsD ->
  ln 10 * (epsD / 3.72 + 2.51 / (Re * sqrt (Rabs f))) * Re <> 0.
Proof.
  intros Hf HRe Heps.
  pose proof (log_arg_pos f Re epsD Hf HRe Heps) as Harg. unfold log_arg in Harg.
  pose proof ln_10_pos.
  apply Rgt_not_eq, Rmult_lt_0_compat; [apply Rmult_lt_0_compat | ]; lra.
Qed.

(** At a positive [Fd] everything but the power is defined, and the result
    is a float as soon as the power has one. *)
Lemma colebrook_deriv_float (f Re epsD : R) :
  0 < f -> 0 < Re -> 0 <= epsD ->
  colebrook_deriv (PFloat f) Re epsD =
    (r <- py_pow_range (Rpower f (-3/2)) ;;
     Ok (PFloat (-0.5 * r *
                 (1 + (2 * 2.51) /
                      (ln 10 * (epsD / 3.72 + 2.51 / (Re * sqrt (Rabs f))) * Re))))).
Proof.
  intros Hf HRe Heps. assert (Hf0 : f <> 0) by lra.
  pose proof (sqrt_Rabs_pos f Hf0) as Hs.
  pose proof (deriv_denominator_nonzero f Re epsD Hf0 HRe Heps) as Hden.
  assert (Re * sqrt (Rabs f) <> 0) by (apply Rmult_integral_contrapositive_currified; lra).
  unfold colebrook_deriv. cbn [py_fabs bind re_part].
  repeat ok_step. rewrite py_pow_float by assumption.
  destruct (py_pow_range (Rpower f (-3/2))); reflexivity.
Qed.

Lemma colebrook_deriv_pos (f Re epsD : R) :
  0 < f -> 0 < Re -> 0 <= epsD -> in_pow_range (Rpower f (-3/2)) ->
  colebrook_deriv (PFloat f) Re epsD = Ok (PFloat (colebrook_deriv_value f Re epsD)).
Proof.
  intros Hf HRe Heps Hr.
  rewrite colebrook_deriv_float, py_pow_range_ok by assumption. reflexivity.
Qed.

(** At a negative [Fd] the power is the complex one. *)
Lemma colebrook_deriv_complex (f Re epsD : R) :
  f < 0 -> 0 < Re -> 0 <= epsD ->
  colebrook_deriv (PFloat f) Re epsD =
    (m <- py_pow_range (Rpower (- f) (-3/2)) ;;
     Ok (py_mul (py_mul (PFloat (-0.5)) (PComplex (m * 0) (m * 1)))
                (PFloat (1 + (2 * 2.51) /
                             (ln 10 * (epsD / 3.72 + 2.51 / (Re * sqrt (Rabs f))) * Re))))).
Proof.
  intros Hf HRe Heps. assert (Hf0 : f <> 0) by lra.
  pose proof (sqrt_Rabs_pos f Hf0) as Hs.
  pose proof (deriv_denominator_nonzero f Re epsD Hf0 HRe Heps) as Hden.
  assert (Re * sqrt (Rabs f) <> 0) by (apply Rmult_integral_contrapositive_currified; lra).
  unfold colebrook_deriv. cbn [py_fabs bind re_part].
  repeat ok_step. rewrite py_pow_complex by assumption.
  destruct (py_pow_range (Rpower (- f) (-3/2))); reflexivity.
Qed.

(** At a negative [Fd] inside the range the result lies on the imaginary
    axis: the power is taken of [Fd], the square root of [|Fd|]. *)
Lemma colebrook_deriv_neg_form (z Re epsD : R) :
  z < 0 -> 0 < Re -> 0 <= epsD -> in_pow_range (Rpower (- z) (-3/2)) ->
  colebrook_deriv (PFloat z) Re epsD =
    Ok (PComplex 0
          (-0.5 * Rpower (- z) (-3/2) *
           (1 + 2 * 2.51 / (ln 10 * (epsD / 3.72 + 2.51 / (Re * sqrt (Rabs z))) * Re)))).
Proof.
  intros Hz HRe Heps Hr.
  rewrite colebrook_deriv_complex, py_pow_range_ok by assumption.
  cbn [bind py_mul re_part im_part].
  do 2 f_equal; ring.
Qed.



(** C4: whenever [colebrook] returns on a float [f], the value is
    [1/sqrt(|f|) + 2*log10(2.51/(Re*sqrt(|f|)) + epsD/3.72)], with the
    absolute value of [f] under both square roots; and it does return it for
    every nonzero [f], positive [Re] and non-negative [epsD]. *)
Theorem colebrook_formula (f Re epsD : R) :
  (forall v, colebrook (PFloat f) Re epsD = Ok v ->
     v = 1 / sqrt (Rabs f) + 2 * log10 (2.51 / (Re * sqrt (Rabs f)) + epsD / 3.72)) /\
  (f <> 0 -> 0 < Re -> 0 <= epsD ->
     colebrook (PFloat f) Re epsD =
       Ok (1 / sqrt (Rabs f) + 2 * log10 (2.51 / (Re * sqrt (Rabs f)) + epsD / 3.72))).
Proof.
  split.
  - intros v Hv. now apply colebrook_float_inv in Hv as [_ ->].
  - intros Hf HRe Heps.
    apply colebrook_float; [assumption | lra | now apply log_arg_pos].
Qed.

Lemma colebrook_formula_witness :
  colebrook (PFloat 1) 1 0 =
    Ok (1 / sqrt (Rabs 1) + 2 * log10 (2.51 / (1 * sqrt (Rabs 1)) + 0 / 3.72)).
Proof. apply (proj2 (colebrook_formula 1 1 0)); lra. Defined.




(** ** The derivative *)






(** ** The loop of [newton] *)

Section Loop.

Variables (Re epsD : R) (maxiter : Z) (tol : R).

Lemma newton_body_inv (x : pynum) (i : Z) (k : ctl) :
  newton_body Re epsD maxiter tol x i = Ok k ->
  exists c d res,
    colebrook x Re epsD = Ok c /\
    colebrook_deriv x Re epsD = Ok d /\
    py_div (PFloat c) d = Ok res /\
    ((py_abs res < tol /\ k = Break (py_sub x res) (i + 1)) \/
     (~ py_abs res < tol /\ (i + 1)%Z <> (maxiter - 1)%Z /\
      k = Next (py_sub x res) (i + 1))).
Proof.
  unfold newton_body.
  destruct (colebrook x Re epsD) as [c | | ]; cbn [bind]; try discriminate.
  destruct (colebrook_deriv x Re epsD) as [d | | ]; cbn [bind]; try discriminate.
  destruct (py_div (PFloat c) d) as [res | | ] eqn:Eres; cbn [bind]; try discriminate.
  intros H. exists c, d, res. do 3 (split; [reflexivity || assumption | ]).
  destruct (Rlt_dec (py_abs res) tol) as [Hlt | Hge].
  - left. split; [assumption | congruence].
  - right. destruct (Z.eqb_spec (i + 1) (maxiter - 1)); [discriminate | ].
    repeat split; [assumption .. | congruence].
Qed.

Lemma newton_body_converged (x : pynum) (i : Z) (c : R) (d res : pynum) :
  colebrook x Re epsD = Ok c ->
  colebrook_deriv x Re epsD = Ok d ->
  py_div (PFloat c) d = Ok res ->
  py_abs res < tol ->
  newton_body Re epsD maxiter tol x i = Ok (Break (py_sub x res) (i + 1)).
Proof.
  intros Hc Hd Hres Hlt. unfold newton_body.
  rewrite Hc, Hd. cbn [bind]. rewrite Hres. cbn [bind].
  destruct (Rlt_dec (py_abs res) tol); [reflexivity | contradiction].
Qed.

Lemma newton_body_continues (x : pynum) (i : Z) (c : R) (d res : pynum) :
  colebrook x Re epsD = Ok c ->
  colebrook_deriv x Re epsD = Ok d ->
  py_div (PFloat c) d = Ok res ->
  ~ py_abs res < tol ->
  newton_body Re epsD maxiter tol x i =
    if (i + 1 =? maxiter - 1)%Z then Raise RootNotFound
    else Ok (Next (py_sub x res) (i + 1)).
Proof.
  intros Hc Hd Hres Hge. unfold newton_body.
  rewrite Hc, Hd. cbn [bind]. rewrite Hres. cbn [bind].
  destruct (Rlt_dec (py_abs res) tol); [contradiction | reflexivity].
Qed.

Lemma newton_body_total (x : pynum) (i : Z) :
  newton_body Re epsD maxiter tol x i <> OutOfFuel.
Proof.
  unfold newton_body, colebrook, colebrook_deriv, py_div, py_fabs, py_sqrt, py_fdiv,
    py_log10, py_log, py_pow, py_pow_range.
  repeat match goal with
         | |- context [match ?a with PFloat _ => _ | PComplex _ _ => _ end] => destruct a
         | |- context [if ?b then _ else _] => destruct b
         | |- _ => progress cbn [bind re_part im_part py_mul]
         end; discriminate.
Qed.

Lemma core_never_root_not_found (x : pynum) :
  colebrook x Re epsD <> Raise RootNotFound /\
  colebrook_deriv x Re epsD <> Raise RootNotFound /\
  (forall c d, py_div (PFloat c) d <> Raise RootNotFound).
Proof.
  unfold colebrook, colebrook_deriv, py_div, py_fabs, py_sqrt, py_fdiv,
    py_log10, py_log, py_pow, py_pow_range.
  repeat split; intros;
    repeat match goal with
           | |- context [match ?a with PFloat _ => _ | PComplex _ _ => _ end] => destruct a
           | |- context [if ?b then _ else _] => destruct b
           | |- _ => progress cbn [bind re_part im_part py_mul]
           end; discriminate.
Qed.

Lemma newton_body_root_not_found (x : pynum) (i : Z) :
  newton_body Re epsD maxiter tol x i = Raise RootNotFound ->
  (i + 1)%Z = (maxiter - 1)%Z.
Proof.
  destruct (core_never_root_not_found x) as (Hc & Hd & Hq).
  unfold newton_body.
  destruct (colebrook x Re epsD) as [c | e | ]; cbn [bind]; try congruence.
  destruct (colebrook_deriv x Re epsD) as [d | e | ]; cbn [bind]; try congruence.
  specialize (Hq c d).
  destruct (py_div (PFloat c) d) as [res | e | ]; cbn [bind]; try congruence.
  destruct (Rlt_dec (py_abs res) tol); [discriminate | ].
  destruct (Z.eqb_spec (i + 1) (maxiter - 1)); [trivial | discriminate].
Qed.

Lemma newton_loop_unfold (fuel : nat) (x : pynum) (i : Z) :
  (i < maxiter)%Z ->
  newton_loop (S fuel) Re epsD maxiter tol x i =
    match newton_body Re epsD maxiter tol x i with
    | Ok (Break x' i') => Ok (x', i')
    | Ok (Next x' i') => newton_loop fuel Re epsD maxiter tol x' i'
    | Raise e => Raise e
    | OutOfFuel => OutOfFuel
    end.
Proof.
  intros Hi. cbn [newton_loop].
  destruct (Z.ltb_spec i maxiter); [reflexivity | lia].
Qed.

Lemma newton_loop_exit (fuel : nat) (x : pynum) (i : Z) :
  (maxiter <= i)%Z ->
  newton_loop fuel Re epsD maxiter tol x i = Ok (x, i).
Proof.
  intros Hi. destruct fuel; cbn [newton_loop];
    destruct (Z.ltb_spec i maxiter); (reflexivity || lia).
Qed.

(** The loop never runs out of the passes [newton] gives it. *)
Lemma newton_loop_total (fuel : nat) :
  forall (x : pynum) (i : Z),
    (maxiter - i <= Z.of_nat fuel)%Z ->
    newton_loop fuel Re epsD maxiter tol x i <> OutOfFuel.
Proof.
  induction fuel as [ | fuel IH]; intros x i Hfuel.
  - rewrite newton_loop_exit by lia. discriminate.
  - destruct (Z.lt_ge_cases i maxiter) as [Hi | Hi].
    + rewrite newton_loop_unfold by assumption.
      destruct (newton_body Re epsD maxiter tol x i) as [[x' i' | x' i'] | e | ] eqn:E;
        try discriminate.
      * apply newton_body_inv in E as (c & d & res & _ & _ & _ & [[_ H] | (_ & _ & H)]);
          [discriminate | ].
        injection H as -> ->. apply IH. lia.
      * now apply newton_body_total in E.
    + rewrite newton_loop_exit by lia. discriminate.
Qed.

Theorem newton_terminates (x0 : pynum) :
  newton x0 Re epsD maxiter tol <> OutOfFuel.
Proof.
  unfold newton. destruct (py_fabs x0) as [a | e | ] eqn:E; cbn [bind]; try discriminate.
  - apply newton_loop_total. lia.
  - destruct x0; discriminate.
Qed.

(** Every value the loop returns after entering it with [i <= maxiter - 2]
    comes out of a pass whose step was below the tolerance, and the count
    returned is at most [maxiter - 1]. *)
Lemma newton_loop_returns (fuel : nat) :
  forall (x : pynum) (i : Z) (x' : pynum) (j : Z),
    (i <= maxiter - 2)%Z ->
    newton_loop fuel Re epsD maxiter tol x i = Ok (x', j) ->
    (i + 1 <= j <= maxiter - 1)%Z /\
    exists y c d res,
      colebrook y Re epsD = Ok c /\ colebrook_deriv y Re epsD = Ok d /\
      py_div (PFloat c) d = Ok res /\ py_abs res < tol /\ x' = py_sub y res.
Proof.
  induction fuel as [ | fuel IH]; intros x i x' j Hi H.
  - cbn [newton_loop] in H. destruct (Z.ltb_spec i maxiter); [discriminate | lia].
  - rewrite newton_loop_unfold in H by lia.
    destruct (newton_body Re epsD maxiter tol x i) as [[y k | y k] | e | ] eqn:E;
      try discriminate;
      apply newton_body_inv in E
        as (c & d & res & Hc & Hd & Hres & [[Hlt Hk] | (Hge & Hne & Hk)]);
      try discriminate; injection Hk as -> ->.
    + injection H as <- <-. split; [lia | ]. now exists x, c, d, res.
    + apply IH in H; [ | lia]. destruct H as [Hj Hlast]. split; [lia | exact Hlast].
Qed.


(** A reached loop-head state is one the call really passes through: the
    call's outcome is the loop's outcome from that state. *)
Lemma newton_reaches_loop (x0 : pynum) (x : pynum) (i : Z) :
  newton_reaches x0 Re epsD maxiter tol x i ->
  (0 <= i)%Z /\
  newton x0 Re epsD maxiter tol =
    newton_loop (Z.to_nat (maxiter - i)) Re epsD maxiter tol x i.
Proof.
  intros H. induction H as [a Ha | x i x' i' H [IH0 IH] Hi Hbody].
  - split; [lia | ]. unfold newton. rewrite Ha. cbn [bind]. now rewrite Z.sub_0_r.
  - pose proof Hbody as Hb.
    apply newton_body_inv in Hb
      as (c & d & res & _ & _ & _ & [[_ Hk] | (_ & Hne & Hk)]); [discriminate | ].
    injection Hk as _ ->. split; [lia | ].
    rewrite IH.
    replace (Z.to_nat (maxiter - i)) with (S (Z.to_nat (maxiter - (i + 1)))) by lia.
    rewrite newton_loop_unfold by assumption. now rewrite Hbody.
Qed.

Lemma iterates_reaches (x0 : R) (n : nat) (x : pynum) :
  iterates Re epsD tol (PFloat (Rabs x0)) n x ->
  (Z.of_nat n + 1 < maxiter)%Z \/ n = 0%nat ->
  newton_reaches (PFloat x0) Re epsD maxiter tol x (Z.of_nat n).
Proof.
  intros H. induction H as [ | n x c d res H IH Hc Hd Hres Hge]; intros Hn.
  - now apply reaches_entry.
  - destruct Hn as [Hn | Hn]; [ | discriminate].
    apply (reaches_next _ _ _ _ _ x (Z.of_nat n)); [apply IH; lia | lia | ].
    rewrite (newton_body_continues _ _ c d res) by assumption.
    destruct (Z.eqb_spec (Z.of_nat n + 1) (maxiter - 1)); [lia | ].
    do 2 f_equal. lia.
Qed.

End Loop.

(** The pass that follows [n] updates without a small step returns as soon
    as its own step is small. *)
Lemma newton_returns_after (x0 Re epsD : R) (maxiter : Z) (tol : R)
    (n : nat) (x : pynum) (c : R) (d res : pynum) :
  iterates Re epsD tol (PFloat (Rabs x0)) n x ->
  colebrook x Re epsD = Ok c ->
  colebrook_deriv x Re epsD = Ok d ->
  py_div (PFloat c) d = Ok res ->
  py_abs res < tol ->
  (Z.of_nat n + 1 < maxiter)%Z \/ (n = 0%nat /\ (0 < maxiter)%Z) ->
  newton (PFloat x0) Re epsD maxiter tol = Ok (py_sub x res, (Z.of_nat n + 1)%Z).
Proof.
  intros Hit Hc Hd Hres Hlt Hn.
  assert (Hreach : newton_reaches (PFloat x0) Re epsD maxiter tol x (Z.of_nat n)).
  { apply iterates_reaches; [assumption | tauto]. }
  apply newton_reaches_loop in Hreach as [_ ->].
  assert (Hi : (Z.of_nat n < maxiter)%Z) by lia.
  replace (Z.to_nat (maxiter - Z.of_nat n))
    with (S (Z.to_nat (maxiter - (Z.of_nat n + 1)))) by lia.
  rewrite newton_loop_unfold by assumption.
  now rewrite (newton_body_converged _ _ _ _ _ _ c d res).
Qed.

Lemma float_iterates_iterates (Re epsD tol a : R) (n : nat) (x : R) :
  float_iterates Re epsD tol a n x -> iterates Re epsD tol (PFloat a) n (PFloat x).
Proof.
  induction 1 as [ | n x c d _ IH Hc Hd Hd0 Hge]; [constructor | ].
  change (PFloat (x - c / d)) with (py_sub (PFloat x) (PFloat (c / d))).
  apply (iterates_S _ _ _ _ n (PFloat x) c (PFloat d)); try assumption.
  cbn [py_div]. now rewrite py_fdiv_ok.
Qed.

(** C6: [newton] starts from [|x0|]; if [n] updates [x <- x - c / d], with
    [c = colebrook(x)] and [d = colebrook_deriv(x)], went by with no step
    [|c / d|] below the tolerance and the next step is strictly below it,
    the call returns the float [x - c / d] of that last update together with
    [n + 1], the number of updates made, the last one included (the
    iteration budget permitting that pass). *)
Theorem newton_returns_first_small_step (x0 Re epsD : R) (maxiter : Z) (tol : R)
    (n : nat) (x c d : R) :
  float_iterates Re epsD tol (Rabs x0) n x ->
  colebrook (PFloat x) Re epsD = Ok c ->
  colebrook_deriv (PFloat x) Re epsD = Ok (PFloat d) ->
  d <> 0 ->
  Rabs (c / d) < tol ->
  (Z.of_nat n + 1 < maxiter)%Z \/ (n = 0%nat /\ (0 < maxiter)%Z) ->
  newton (PFloat x0) Re epsD maxiter tol = Ok (PFloat (x - c / d), (Z.of_nat n + 1)%Z).
Proof.
  intros Hit Hc Hd Hd0 Hlt Hn.
  change (PFloat (x - c / d)) with (py_sub (PFloat x) (PFloat (c / d))).
  apply (newton_returns_after x0 Re epsD maxiter tol n (PFloat x) c (PFloat d));
    try assumption.
  - now apply float_iterates_iterates.
  - cbn [py_div]. now rewrite py_fdiv_ok.
Qed.


(** With [maxiter >= 2] a value is returned only out of a pass whose step was
    below the tolerance. *)
Lemma newton_returns_converged (x0 : pynum) (Re epsD : R) (maxiter : Z) (tol : R)
    (x : pynum) (i : Z) :
  (2 <= maxiter)%Z ->
  newton x0 Re epsD maxiter tol = Ok (x, i) ->
  exists y c d res,
    colebrook y Re epsD = Ok c /\ colebrook_deriv y Re epsD = Ok d /\
    py_div (PFloat c) d = Ok res /\ py_abs res < tol /\ x = py_sub y res.
Proof.
  intros Hm H. unfold newton in H.
  destruct (py_fabs x0) as [a | e | ]; cbn [bind] in H; try discriminate.
  apply newton_loop_returns in H; [tauto | lia].
Qed.

(** ** The budget [maxiter = 1] *)

(** With [maxiter = 1] the test [i == maxiter - 1] compares [1] with [0]: the
    single pass is never followed by the exception. *)
Lemma newton_maxiter_1_never_root_not_found (x0 : pynum) (Re epsD tol : R) :
  newton x0 Re epsD 1 tol <> Raise RootNotFound.
Proof.
  unfold newton. destruct x0 as [x | re im]; cbn [py_fabs bind]; [ | discriminate].
  change (Z.to_nat 1) with 1%nat. rewrite newton_loop_unfold by lia.
  destruct (newton_body Re epsD 1 tol (PFloat (Rabs x)) 0) as [[y k | y k] | e | ] eqn:E.
  - discriminate.
  - apply newton_body_inv in E as (c & d & res & _ & _ & _ & [[_ Hk] | (_ & _ & Hk)]);
      [discriminate | ].
    injection Hk as -> ->. rewrite newton_loop_exit by lia. discriminate.
  - intros He. injection He as ->. apply newton_body_root_not_found in E. lia.
  - discriminate.
Qed.

(** Whatever the size of the step, the single pass is returned. *)
Lemma newton_maxiter_1_returns (x0 Re epsD tol : R) (c : R) (d res : pynum) :
  colebrook (PFloat (Rabs x0)) Re epsD = Ok c ->
  colebrook_deriv (PFloat (Rabs x0)) Re epsD = Ok d ->
  py_div (PFloat c) d = Ok res ->
  newton (PFloat x0) Re epsD 1 tol = Ok (py_sub (PFloat (Rabs x0)) res, 1%Z).
Proof.
  intros Hc Hd Hres. unfold newton. cbn [py_fabs bind].
  change (Z.to_nat 1) with 1%nat. rewrite newton_loop_unfold by lia.
  destruct (Rlt_dec (py_abs res) tol) as [Hlt | Hge].
  - now rewrite (newton_body_converged _ _ _ _ _ _ c d res).
  - rewrite (newton_body_continues _ _ _ _ _ _ c d res) by assumption.
    change (0 + 1 =? 1 - 1)%Z with false. cbv iota.
    now rewrite newton_loop_exit by lia.
Qed.

(** *** The call [newton(1000, 1e5, 0.001, ...)] *)

Lemma sqrt_between (x lo hi : R) :
  0 <= lo -> 0 <= hi -> lo * lo < x -> x < hi * hi -> lo < sqrt x < hi.
Proof.
  intros Hlo Hhi Hl Hh.
  assert (Hx : 0 <= x) by nra.
  split.
  - rewrite <- (sqrt_square lo) by assumption. apply sqrt_lt_1; nra.
  - rewrite <- (sqrt_square hi) by assumption. apply sqrt_lt_1; nra.
Qed.

Lemma ln_10_gt_1 : 1 < ln 10.
Proof.
  apply exp_lt_inv. rewrite exp_ln by lra. pose proof exp_le_3. lra.
Qed.

Lemma log10_lt_neg3 (t : R) : 0 < t -> t < / 1000 -> log10 t < -3.
Proof.
  intros Ht Hlt. unfold log10. pose proof ln_10_pos as Hln.
  assert (H : ln t < -3 * ln 10).
  { replace (-3 * ln 10) with (ln (/ 1000)).
    - now apply ln_increasing.
    - rewrite ln_Rinv by lra. replace 1000 with (10 ^ 3) by lra.
      rewrite ln_pow by lra. simpl. lra. }
  apply (Rmult_lt_reg_r (ln 10)); [assumption | ].
  unfold Rdiv. rewrite Rmult_assoc, Rinv_l by lra. lra.
Qed.

Lemma log10_gt_neg4 (t : R) : / 10000 < t -> -4 < log10 t.
Proof.
  intros Hlt. unfold log10. pose proof ln_10_pos as Hln.
  assert (H : -4 * ln 10 < ln t).
  { replace (-4 * ln 10) with (ln (/ 10000)).
    - apply ln_increasing; lra.
    - rewrite ln_Rinv by lra. replace 10000 with (10 ^ 4) by lra.
      rewrite ln_pow by lra. simpl. lra. }
  apply (Rmult_lt_reg_r (ln 10)); [assumption | ].
  unfold Rdiv. rewrite Rmult_assoc, Rinv_l by lra. lra.
Qed.

Lemma sqrt_far (m : R) : 1000 <= m -> 31 < sqrt m.
Proof.
  intros Hm. rewrite <- (sqrt_square 31) by lra. apply sqrt_lt_1; lra.
Qed.

(** Far from the root, at [Re = 1e5] and [epsD = 0.001], the residual is
    below [-5] ... *)
Lemma far_residual (z : R) : 1000 <= Rabs z -> colebrook_value z 1e5 0.001 < -5.
Proof.
  intros Hz. unfold colebrook_value.
  pose proof (sqrt_far (Rabs z) Hz) as Hs. set (s := sqrt (Rabs z)) in *.
  assert (H1 : 1 / s < 1).
  { apply (Rmult_lt_reg_r s); [lra | ]. unfold Rdiv. rewrite Rmult_assoc, Rinv_l by lra. lra. }
  assert (H2 : 0 < 2.51 / (1e5 * s) < / 100000).
  { split; [apply Rdiv_lt_0_compat; nra | ].
    apply (Rmult_lt_reg_r (1e5 * s)); [nra | ].
    unfold Rdiv. rewrite Rmult_assoc, Rinv_l by nra. nra. }
  assert (H3 : log10 (2.51 / (1e5 * s) + 0.001 / 3.72) < -3).
  { apply log10_lt_neg3; lra. }
  lra.
Qed.

(** ... and the two factors of the derivative are small. *)
Lemma far_slope_factors (m : R) :
  1000 <= m ->
  0 < Rpower m (-3/2) < / 31000 /\
  0 < 2 * 2.51 / (ln 10 * (0.001 / 3.72 + 2.51 / (1e5 * sqrt m)) * 1e5) < 1.
Proof.
  intros Hm. pose proof (sqrt_far m Hm) as Hs.
  rewrite Rpower_neg_three_halves by lra.
  set (s := sqrt m) in *. pose proof ln_10_gt_1 as Hln.
  split.
  - split; [apply Rinv_0_lt_compat; nra | ].
    apply Rinv_lt_contravar; nra.
  - assert (Ht : 0 < 2.51 / (1e5 * s)) by (apply Rdiv_lt_0_compat; nra).
    set (den := ln 10 * (0.001 / 3.72 + 2.51 / (1e5 * s)) * 1e5).
    assert (Hden : 20 < den) by (unfold den; nra).
    split; [apply Rdiv_lt_0_compat; lra | ].
    apply (Rmult_lt_reg_r den); [lra | ].
    unfold Rdiv. rewrite Rmult_assoc, Rinv_l by lra. lra.
Qed.

Lemma far_seed_slope : - / 31000 < colebrook_deriv_value 1000 1e5 0.001 < 0.
Proof.
  unfold colebrook_deriv_value. rewrite (Rabs_pos_eq 1000) by lra.
  destruct (far_slope_factors 1000) as [Hp Hq]; [lra | ].
  set (p := Rpower 1000 (-3/2)) in *.
  set (q := 2 * 2.51 / (ln 10 * (0.001 / 3.72 + 2.51 / (1e5 * sqrt 1000)) * 1e5)) in *.
  nra.
Qed.

(** At the seed the residual is above [-8] and the slope below [-1/64000]. *)
Lemma far_seed_bounds :
  -8 < colebrook_value 1000 1e5 0.001 /\
  colebrook_deriv_value 1000 1e5 0.001 < - / 64000.
Proof.
  assert (Hs : 31 < sqrt 1000 < 32) by (apply sqrt_between; lra).
  pose proof ln_10_gt_1 as Hln.
  assert (Ht : 0 < 2.51 / (1e5 * sqrt 1000)) by (apply Rdiv_lt_0_compat; nra).
  split.
  - unfold colebrook_value. rewrite (Rabs_pos_eq 1000) by lra.
    assert (H1 : 0 < 1 / sqrt 1000) by (apply Rdiv_lt_0_compat; lra).
    assert (H3 : -4 < log10 (2.51 / (1e5 * sqrt 1000) + 0.001 / 3.72))
      by (apply log10_gt_neg4; lra).
    lra.
  - unfold colebrook_deriv_value. rewrite (Rabs_pos_eq 1000) by lra.
    rewrite Rpower_neg_three_halves by lra.
    assert (Hp : / 32000 < / (1000 * sqrt 1000)) by (apply Rinv_lt_contravar; nra).
    set (p := / (1000 * sqrt 1000)) in *.
    assert (Hq : 0 < 2 * 2.51 / (ln 10 * (0.001 / 3.72 + 2.51 / (1e5 * sqrt 1000)) * 1e5)).
    { apply Rdiv_lt_0_compat; [lra | ].
      apply Rmult_lt_0_compat; [apply Rmult_lt_0_compat | ]; lra. }
    set (q := 2 * 2.51 / (ln 10 * (0.001 / 3.72 + 2.51 / (1e5 * sqrt 1000)) * 1e5)) in *.
    nra.
Qed.

Lemma far_seed_step :
  let c := colebrook_value 1000 1e5 0.001 in
  let d := colebrook_deriv_value 1000 1e5 0.001 in
  colebrook (PFloat (Rabs 1000)) 1e5 0.001 = Ok c /\
  colebrook_deriv (PFloat (Rabs 1000)) 1e5 0.001 = Ok (PFloat d) /\
  py_div (PFloat c) (PFloat d) = Ok (PFloat (c / d)) /\
  155000 < c / d < 512000.
Proof.
  intros c d.
  assert (Hc : c < -5) by (apply far_residual; rewrite Rabs_pos_eq; lra).
  pose proof far_seed_slope as Hd. fold d in Hd.
  destruct far_seed_bounds as [Hc8 Hd64]. fold c in Hc8. fold d in Hd64.
  rewrite (Rabs_pos_eq 1000) by lra.
  split; [ | split; [ | split; [ | split]]].
  - apply colebrook_float; [lra | lra | apply log_arg_pos; lra].
  - apply colebrook_deriv_pos; try lra. apply three_halves_in_range_6. lra.
  - cbn [py_div]. rewrite py_fdiv_ok by lra. reflexivity.
  - replace (c / d) with ((- c) / (- d)) by (field; lra).
    apply (Rmult_lt_reg_r (- d)); [lra | ].
    unfold Rdiv. rewrite Rmult_assoc, Rinv_l by lra. nra.
  - replace (c / d) with ((- c) / (- d)) by (field; lra).
    apply (Rmult_lt_reg_r (- d)); [lra | ].
    unfold Rdiv. rewrite Rmult_assoc, Rinv_l by lra. nra.
Qed.

(** C1 at the input of the claim: with [maxiter = 1] the call returns after
    one pass, although the step taken, [res > 155000], is nowhere near the
    tolerance [1e-9] (the value returned is negative); no exception is
    raised. *)
Theorem newton_maxiter_1_returns_unconverged :
  exists res : R,
    newton (PFloat 1000) 1e5 0.001 1 1e-9 = Ok (PFloat (1000 - res), 1%Z) /\
    ~ Rabs res < 1e-9 /\ 1000 - res < 0.
Proof.
  destruct far_seed_step as (Hc & Hd & Hres & Hbig & Hsmall).
  eexists. split; [ | split].
  - rewrite (newton_maxiter_1_returns 1000 1e5 0.001 1e-9 _ _ _ Hc Hd Hres).
    cbn [py_sub]. rewrite (Rabs_pos_eq 1000) by lra. reflexivity.
  - rewrite Rabs_pos_eq by lra. lra.
  - lra.
Qed.

(** *** The same seed under the default budget *)

Lemma py_abs_imaginary (a b : R) : Rabs b <= py_abs (PComplex a b).
Proof.
  cbn [py_abs]. rewrite <- sqrt_Rsqr_abs. apply sqrt_le_1.
  - apply Rle_0_sqr.
  - pose proof (Rle_0_sqr a). pose proof (Rle_0_sqr b). unfold Rsqr in *. lra.
  - pose proof (Rle_0_sqr a). unfold Rsqr in *. lra.
Qed.

(** A pass from a float guess [z <= -1000]: the derivative is imaginary, the
    step is a complex number of modulus above 5, and the next guess is
    complex. *)
Lemma far_negative_pass (z : R) (maxiter i : Z) :
  - 10 ^ 6 <= z <= -1000 -> (i + 1)%Z <> (maxiter - 1)%Z ->
  exists re im,
    newton_body 1e5 0.001 maxiter 1e-9 (PFloat z) i = Ok (Next (PComplex re im) (i + 1)).
Proof.
  intros [Hz6 Hz] Hi.
  assert (Habs : Rabs z = - z) by (apply Rabs_left; lra).
  assert (Hc : colebrook_value z 1e5 0.001 < -5) by (apply far_residual; lra).
  destruct (far_slope_factors (- z)) as [Hp Hq]; [lra | ].
  assert (Hr : in_pow_range (Rpower (- z) (-3/2))).
  { apply three_halves_in_range_6. lra. }
  pose proof (fun H1 H2 H3 => colebrook_deriv_neg_form z 1e5 0.001 H1 H2 H3 Hr) as Hd.
  rewrite Habs in Hd.
  set (c := colebrook_value z 1e5 0.001) in *.
  set (p := Rpower (- z) (-3/2)) in *.
  set (q := 2 * 2.51 / (ln 10 * (0.001 / 3.72 + 2.51 / (1e5 * sqrt (- z))) * 1e5)) in *.
  set (im := -0.5 * p * (1 + q)) in *.
  assert (Him : - / 31000 < im < 0) by (unfold im; nra).
  assert (Hn : 0 * 0 + im * im <> 0) by nra.
  assert (Hcole : colebrook (PFloat z) 1e5 0.001 = Ok c).
  { apply colebrook_float; [lra | lra | apply log_arg_pos; lra]. }
  assert (Hdiv : py_div (PFloat c) (PComplex 0 im) =
                 Ok (PComplex ((c * 0 + 0 * im) / (0 * 0 + im * im))
                              ((0 * 0 - c * im) / (0 * 0 + im * im)))).
  { cbn [py_div re_part im_part]. destruct (Req_EM_T (0 * 0 + im * im) 0); [contradiction | ].
    reflexivity. }
  do 2 eexists.
  rewrite (newton_body_continues _ _ _ _ _ _ c (PComplex 0 im) _ Hcole (Hd ltac:(lra) ltac:(lra) ltac:(lra)) Hdiv).
  - destruct (Z.eqb_spec (i + 1) (maxiter - 1)); [contradiction | ].
    cbn [py_sub re_part im_part]. reflexivity.
  - intros Hlt.
    pose proof (py_abs_imaginary ((c * 0 + 0 * im) / (0 * 0 + im * im))
                  ((0 * 0 - c * im) / (0 * 0 + im * im))) as Hge.
    replace ((0 * 0 - c * im) / (0 * 0 + im * im)) with ((- c) / im) in Hge at 1
      by (field; lra).
    assert (Hb : (- c) / im < -5).
    { apply (Rmult_lt_reg_r (- im)); [lra | ].
      replace (- c / im * - im) with c by (field; lra). nra. }
    rewrite (Rabs_left (- c / im)) in Hge by lra. lra.
Qed.

(** With the default budget the call [newton(1000, 1e5, 0.001)] ends in a
    [TypeError] raised by [math.fabs] inside [colebrook]: the first update
    lands on a negative float, the second on a complex number, and the third
    pass hands that number to the Equation Core. *)
Theorem newton_far_seed_type_error :
  newton (PFloat 1000) 1e5 0.001 default_maxiter default_tol = Raise TypeError.
Proof.
  destruct far_seed_step as (Hc & Hd & Hres & Hbig & Hsmall).
  set (c := colebrook_value 1000 1e5 0.001) in *.
  set (d := colebrook_deriv_value 1000 1e5 0.001) in *.
  unfold newton, default_maxiter, default_tol. cbn [py_fabs bind].
  change (Z.to_nat 100) with 100%nat.
  rewrite newton_loop_unfold by lia.
  rewrite (newton_body_continues _ _ _ _ _ _ c (PFloat d) (PFloat (c / d)) Hc Hd Hres)
    by (cbn [py_abs]; rewrite Rabs_pos_eq by lra; lra).
  change (0 + 1 =? 100 - 1)%Z with false. cbv iota. cbn [py_sub].
  rewrite newton_loop_unfold by lia.
  destruct (far_negative_pass (Rabs 1000 - c / d) 100 (0 + 1)) as (re & im & Hpass);
    [rewrite Rabs_pos_eq by lra; lra | lia | ].
  rewrite Hpass.
  rewrite newton_loop_unfold by lia.
  reflexivity.
Qed.

(** ** The regime switch of the main script *)

(** C7: for a positive Reynolds number the switch at 2040 returns [64/Re]
    without calling the solver when [Re <= 2040], and otherwise returns, or
    raises, exactly what [newton] seeded with [0.01] and its default budget
    and tolerance does. *)
Theorem friction_factor_regimes (Re epsD : R) :
  0 < Re ->
  (Re <= 2040 -> friction_factor Re epsD = Ok (PFloat (64 / Re))) /\
  (2040 < Re ->
     (forall Fd, friction_factor Re epsD = Ok Fd <->
                 exists i, newton (PFloat 0.01) Re epsD 100 1e-9 = Ok (Fd, i)) /\
     (forall e, friction_factor Re epsD = Raise e <->
                newton (PFloat 0.01) Re epsD 100 1e-9 = Raise e)).
Proof.
  intros HRe. unfold friction_factor. split; intros H.
  - destruct (Rle_dec Re 2040); [ | lra]. now rewrite py_fdiv_ok by lra.
  - destruct (Rle_dec Re 2040); [lra | ].
    unfold newton_root, default_maxiter, default_tol.
    destruct (newton (PFloat 0.01) Re epsD 100 1e-9) as [[x i] | e' | ]; cbn [bind fst].
    + split.
      * intros Fd. split; [intros E; injection E as <-; now exists i | ].
        intros [j E]. now injection E as -> _.
      * intros e. split; discriminate.
    + split.
      * intros Fd. split; [discriminate | intros [j E]; discriminate].
      * intros e. split; intros E; injection E as ->; reflexivity.
    + split.
      * intros Fd. split; [discriminate | intros [j E]; discriminate].
      * intros e. split; discriminate.
Qed.

Lemma friction_factor_regimes_witness :
  friction_factor 100 0 = Ok (PFloat (64 / 100)).
Proof.
  assert (H : 0 < 100) by lra.
  apply (proj1 (friction_factor_regimes 100 0 H)). lra.
Defined.

(** For a record of positive fields the Reynolds number and the relative
    roughness are defined, and the friction factor is the one the switch
    selects for them. *)
Lemma process_record_friction (diameter velocity density viscosity roughness : R) :
  0 < diameter -> 0 < viscosity ->
  process_record diameter velocity density viscosity roughness =
    (Fd <- friction_factor (diameter * velocity * density / viscosity)
                           (roughness / 1000 / diameter) ;;
     v2 <- py_pow velocity 2 ;;
     pressureLoss <- py_div (py_mul Fd (py_mul (PFloat density) v2))
                            (PFloat (2 * diameter)) ;;
     Ok (diameter * velocity * density / viscosity, Fd, pressureLoss)).
Proof.
  intros Hd Hv. unfold process_record.
  rewrite (py_fdiv_ok _ viscosity), (py_fdiv_ok _ 1000) by lra. cbn [bind].
  rewrite py_fdiv_ok by lra. reflexivity.
Qed.

(** ** The laminar segment *)

Lemma laminar_loop_spec (range : list Z) :
  Forall (fun Re => Re <> 0%Z) range ->
  forall (ReVals : list Z) (FdVals : list R),
    laminar_loop range ReVals FdVals =
      Ok (ReVals ++ range, FdVals ++ map (fun Re => 64 / IZR Re) range).
Proof.
  induction 1 as [ | Re range HRe _ IH]; intros ReVals FdVals; cbn [laminar_loop map].
  - now rewrite !app_nil_r.
  - rewrite py_fdiv_ok by (now apply not_0_IZR). cbn [bind].
    rewrite IH, <- !app_assoc. reflexivity.
Qed.

Lemma in_py_range (lo hi z : Z) : In z (py_range lo hi) <-> (lo <= z < hi)%Z.
Proof.
  unfold py_range. rewrite in_map_iff. split.
  - intros (k & <- & Hk). apply in_seq in Hk. lia.
  - intros Hz. exists (Z.to_nat (z - lo)). split; [lia | ]. apply in_seq. lia.
Qed.

(** C8: the laminar loop returns the Reynolds numbers [500, ..., 2499], each
    integer of [500, 2500) once and nothing else, and beside each of them the
    friction factor [64/Re], obtained by that one division. *)
Theorem laminar_segment :
  exists (laminarReVals : list Z) (laminarFdVals : list R),
    laminar = Ok (laminarReVals, laminarFdVals) /\
    laminarReVals = py_range 500 2500 /\
    (forall Re, In Re laminarReVals <-> (500 <= Re < 2500)%Z) /\
    NoDup laminarReVals /\
    laminarFdVals = map (fun Re => 64 / IZR Re) laminarReVals.
Proof.
  exists (py_range 500 2500), (map (fun Re => 64 / IZR Re) (py_range 500 2500)).
  split; [ | split; [reflexivity | split; [ | split; [ | reflexivity]]]].
  - unfold laminar. rewrite laminar_loop_spec; [reflexivity | ].
    apply Forall_forall. intros Re HRe. apply in_py_range in HRe. lia.
  - intros Re. apply in_py_range.
  - unfold py_range. apply NoDup_map_NoDup_ForallPairs; [ | apply seq_NoDup].
    intros a b _ _ Hab. lia.
Qed.

(** ** Convexity of the residual *)

Lemma ln_le_minus_1 (z : R) : 0 < z -> ln z <= z - 1.
Proof.
  intros Hz. pose proof (exp_ineq1_le (z - 1)) as H.
  replace (1 + (z - 1)) with z in H by ring.
  destruct H as [H | H].
  - left. rewrite <- (ln_exp (z - 1)). now apply ln_increasing.
  - right. rewrite H at 1. apply ln_exp.
Qed.

Lemma ln_diff_lower (p q : R) : 0 < p -> 0 < q -> (p - q) / p <= ln p - ln q.
Proof.
  intros Hp Hq.
  assert (H : ln (q * / p) <= q * / p - 1).
  { apply ln_le_minus_1. apply Rmult_lt_0_compat; [assumption | now apply Rinv_0_lt_compat]. }
  rewrite ln_mult, ln_Rinv in H; try assumption; [ | now apply Rinv_0_lt_compat].
  replace ((p - q) / p) with (- (q * / p - 1)) by (field; lra). lra.
Qed.

(** The tangent inequality in the variable [u = 1/sqrt(f)]: the function
    [u + k*ln(a*u + b)] of [f = 1/u^2] lies strictly above its tangents. *)
Lemma tangent_core (u v a b k : R) :
  0 < u -> 0 < v -> u <> v -> 0 < a -> 0 <= b -> 0 < k ->
  u + k * ln (a * u + b)
    + (- / 2 * (u * u * u) * (1 + k * a / (a * u + b))) * (/ (v * v) - / (u * u))
  < v + k * ln (a * v + b).
Proof.
  intros Hu Hv Huv Ha Hb Hk.
  assert (HPu : 0 < a * u + b) by nra.
  assert (HPv : 0 < a * v + b) by nra.
  pose proof (ln_diff_lower (a * v + b) (a * u + b) HPv HPu) as Hln.
  assert (HW : v - u + k * ((a * v + b - (a * u + b)) / (a * v + b))
               - (- / 2 * (u * u * u) * (1 + k * a / (a * u + b))) * (/ (v * v) - / (u * u))
               = (v - u) * (v - u) *
                 ((2 * v + u) / (2 * (v * v))
                  + k * a * (a * u * v + b * (2 * v + u))
                    / (2 * (v * v) * (a * v + b) * (a * u + b)))).
  { field. repeat split; lra. }
  assert (Hsq : 0 < (v - u) * (v - u)) by nra.
  assert (HQ : 0 < (2 * v + u) / (2 * (v * v))
                  + k * a * (a * u * v + b * (2 * v + u))
                    / (2 * (v * v) * (a * v + b) * (a * u + b))).
  { assert (0 < v * v) by nra.
    assert (0 < (2 * v + u) / (2 * (v * v))) by (apply Rdiv_lt_0_compat; lra).
    assert (0 < a * u * v) by (apply Rmult_lt_0_compat; nra).
    assert (0 <= b * (2 * v + u)) by nra.
    assert (0 < k * a) by nra.
    assert (0 < 2 * (v * v) * (a * v + b) * (a * u + b))
      by (repeat apply Rmult_lt_0_compat; lra).
    assert (0 < k * a * (a * u * v + b * (2 * v + u))
                / (2 * (v * v) * (a * v + b) * (a * u + b))).
    { apply Rdiv_lt_0_compat; [ | assumption]. apply Rmult_lt_0_compat; lra. }
    lra. }
  pose proof (Rmult_lt_0_compat _ _ Hsq HQ) as Hpos.
  rewrite <- HW in Hpos.
  set (tang := (- / 2 * (u * u * u) * (1 + k * a / (a * u + b))) * (/ (v * v) - / (u * u))) in *.
  set (lo := (a * v + b - (a * u + b)) / (a * v + b)) in *.
  assert (k * lo <= k * (ln (a * v + b) - ln (a * u + b))) by (apply Rmult_le_compat_l; lra).
  lra.
Qed.

Lemma colebrook_value_inv_sqrt (x Re epsD : R) :
  0 < x -> 0 < Re ->
  colebrook_value x Re epsD =
    / sqrt x + 2 / ln 10 * ln (2.51 / Re * / sqrt x + epsD / 3.72).
Proof.
  intros Hx HRe. pose proof (sqrt_lt_R0 x Hx) as Hs. pose proof ln_10_pos as Hln.
  unfold colebrook_value, log10. rewrite (Rabs_pos_eq x) by lra.
  replace (2.51 / (Re * sqrt x)) with (2.51 / Re * / sqrt x) by (field; lra).
  field. lra.
Qed.

Lemma colebrook_deriv_value_inv_sqrt (x Re epsD : R) :
  0 < x -> 0 < Re -> 0 <= epsD ->
  colebrook_deriv_value x Re epsD =
    - / 2 * (/ sqrt x * / sqrt x * / sqrt x) *
    (1 + 2 / ln 10 * (2.51 / Re) / (2.51 / Re * / sqrt x + epsD / 3.72)).
Proof.
  intros Hx HRe Heps. pose proof (sqrt_lt_R0 x Hx) as Hs. pose proof ln_10_pos as Hln.
  assert (Hx0 : x <> 0) by lra.
  pose proof (log_arg_pos x Re epsD Hx0 HRe Heps) as Harg.
  unfold log_arg in Harg. rewrite (Rabs_pos_eq x) in Harg by lra.
  unfold colebrook_deriv_value. rewrite (Rabs_pos_eq x) by lra.
  rewrite Rpower_neg_three_halves by assumption.
  replace (x * sqrt x) with (sqrt x * sqrt x * sqrt x) by (rewrite sqrt_sqrt; lra).
  replace (2.51 / Re * / sqrt x + epsD / 3.72) with (2.51 / (Re * sqrt x) + epsD / 3.72)
    by (field; lra).
  replace (epsD / 3.72 + 2.51 / (Re * sqrt x)) with (2.51 / (Re * sqrt x) + epsD / 3.72)
    by ring.
  set (t := 2.51 / (Re * sqrt x) + epsD / 3.72) in *.
  replace (-0.5) with (- / 2) by lra.
  field. lra.
Qed.

(** The residual lies strictly above each of its tangents on [f > 0]. *)
Lemma colebrook_tangent (x y Re epsD : R) :
  0 < x -> 0 < y -> x <> y -> 0 < Re -> 0 <= epsD ->
  colebrook_value x Re epsD + colebrook_deriv_value x Re epsD * (y - x)
  < colebrook_value y Re epsD.
Proof.
  intros Hx Hy Hxy HRe Heps.
  pose proof (sqrt_lt_R0 x Hx) as Hsx. pose proof (sqrt_lt_R0 y Hy) as Hsy.
  pose proof ln_10_pos as Hln.
  rewrite !colebrook_value_inv_sqrt, colebrook_deriv_value_inv_sqrt by assumption.
  assert (Hx' : x = / (/ sqrt x * / sqrt x)).
  { rewrite <- Rinv_mult, sqrt_sqrt, Rinv_inv by lra. reflexivity. }
  assert (Hy' : y = / (/ sqrt y * / sqrt y)).
  { rewrite <- Rinv_mult, sqrt_sqrt, Rinv_inv by lra. reflexivity. }
  assert (Hu : 0 < / sqrt x) by now apply Rinv_0_lt_compat.
  assert (Hv : 0 < / sqrt y) by now apply Rinv_0_lt_compat.
  assert (Huv : / sqrt x <> / sqrt y).
  { intros E. apply Hxy. rewrite Hx', Hy', E. reflexivity. }
  replace (y - x) with (/ (/ sqrt y * / sqrt y) - / (/ sqrt x * / sqrt x))
    by (rewrite <- Hx', <- Hy'; reflexivity).
  apply tangent_core; try assumption.
  - apply Rdiv_lt_0_compat; lra.
  - apply Rle_mult_inv_pos; lra.
  - apply Rdiv_lt_0_compat; lra.
Qed.

Lemma colebrook_deriv_value_neg (x Re epsD : R) :
  0 < x -> 0 < Re -> 0 <= epsD -> colebrook_deriv_value x Re epsD < 0.
Proof.
  intros Hx HRe Heps. assert (Hx0 : x <> 0) by lra.
  pose proof (log_arg_pos x Re epsD Hx0 HRe Heps) as Harg. unfold log_arg in Harg.
  pose proof ln_10_pos as Hln. pose proof (Rpower_pos x (-3/2)) as Hp.
  unfold colebrook_deriv_value.
  set (den := ln 10 * (epsD / 3.72 + 2.51 / (Re * sqrt (Rabs x))) * Re).
  assert (Hden : 0 < den) by (unfold den; repeat apply Rmult_lt_0_compat; lra).
  assert (0 < 2 * 2.51 / den) by (apply Rdiv_lt_0_compat; lra).
  nra.
Qed.

(** ** Invariants of the Newton iteration *)


Section Invariant.

Variables (P Q : pynum -> Prop) (Re epsD : R) (maxiter : Z) (tol : R).

Hypothesis update_P_Q :
  forall x c d res,
    P x -> colebrook x Re epsD = Ok c -> colebrook_deriv x Re epsD = Ok d ->
    py_div (PFloat c) d = Ok res -> Q (py_sub x res).

Hypothesis Q_P : forall x, Q x -> P x.



End Invariant.

(** A Newton step from a positive guess at which the residual is not
    negative moves right and keeps the residual non-negative. *)
Lemma newton_step_left (z Re epsD : R) :
  0 < z -> 0 < Re -> 0 <= epsD ->
  0 <= colebrook_value z Re epsD ->
  let z' := z - colebrook_value z Re epsD / colebrook_deriv_value z Re epsD in
  z <= z' /\ 0 <= colebrook_value z' Re epsD /\
  (0 < colebrook_value z Re epsD -> z < z').
Proof.
  intros Hz HRe Heps HF z'.
  pose proof (colebrook_deriv_value_neg z Re epsD Hz HRe Heps) as HD.
  set (F := colebrook_value z Re epsD) in *.
  set (D := colebrook_deriv_value z Re epsD) in *.
  assert (Hq : F / D <= 0 /\ (0 < F -> F / D < 0) /\ D * (F / D) = F).
  { split; [ | split].
    - unfold Rdiv. assert (/ D < 0) by now apply Rinv_lt_0_compat. nra.
    - intros HF'. unfold Rdiv. assert (/ D < 0) by now apply Rinv_lt_0_compat. nra.
    - field. lra. }
  destruct Hq as (Hq1 & Hq2 & Hq3).
  assert (Hle : z <= z') by (unfold z'; lra).
  split; [assumption | split].
  - destruct (Req_dec z z') as [E | Hne].
    + rewrite <- E. exact HF.
    + pose proof (colebrook_tangent z z' Re epsD Hz ltac:(lra) Hne HRe Heps) as Ht.
      fold F D in Ht. replace (F + D * (z' - z)) with 0 in Ht; [lra | ].
      unfold z'. replace (z - F / D - z) with (- (F / D)) by ring. lra.
  - intros HF'. specialize (Hq2 HF'). unfold z'. lra.
Qed.

(** ** The loops of [moody] *)

Lemma mat_store_inv (M : matrix) (i j : nat) (v : pynum) (M' : matrix) :
  mat_store M i j v = Ok M' ->
  exists x, v = PFloat x /\ (i < rows M)%nat /\ (j < cols M)%nat /\
            rows M' = rows M /\ cols M' = cols M /\
            forall i' j', cell M' i' j' =
                          if (i' =? i)%nat && (j' =? j)%nat then x else cell M i' j'.
Proof.
  unfold mat_store.
  destruct (Nat.ltb_spec i (rows M)) as [Hi | Hi]; cbn [andb]; [ | discriminate].
  destruct (Nat.ltb_spec j (cols M)) as [Hj | Hj]; [ | discriminate].
  destruct v as [x | re im]; [ | discriminate].
  intros Hs. injection Hs as <-. exists x. cbn. repeat split; assumption.
Qed.

Lemma mat_store_ok (M : matrix) (i j : nat) (x : R) :
  (i < rows M)%nat -> (j < cols M)%nat ->
  exists M', mat_store M i j (PFloat x) = Ok M'.
Proof.
  intros Hi Hj. unfold mat_store.
  destruct (Nat.ltb_spec i (rows M)); cbn [andb]; [ | lia].
  destruct (Nat.ltb_spec j (cols M)); [ | lia].
  eauto.
Qed.

Lemma curve_loop_values (epsD : R) (j : nat) (Re_range : list R) :
  forall (M : matrix) (g : pynum) (idx : nat) (M' : matrix) (g' : pynum),
    curve_loop Re_range epsD j M g idx = Ok (M', g') ->
    rows M' = rows M /\ cols M' = cols M /\
    exists vals,
      curve_values Re_range epsD g = Ok (vals, g') /\
      length vals = length Re_range /\
      forall i' j',
        cell M' i' j' =
          if (j' =? j)%nat && (idx <=? i')%nat && (i' <? idx + length vals)%nat
          then nth (i' - idx) vals 0 else cell M i' j'.
Proof.
  induction Re_range as [ | Re rest IH]; intros M g idx M' g' H; cbn [curve_loop] in H.
  - injection H as <- <-. repeat split. exists []. repeat split.
    intros i' j'. cbn [length]. rewrite Nat.add_0_r.
    destruct (j' =? j)%nat; cbn [andb]; [ | reflexivity].
    destruct (Nat.leb_spec idx i'), (Nat.ltb_spec i' idx); cbn [andb]; (reflexivity || lia).
  - destruct (newton_root g Re epsD) as [v | | ] eqn:Ev; cbn [bind] in H; try discriminate.
    destruct (mat_store M idx j v) as [M1 | | ] eqn:Es; cbn [bind] in H; try discriminate.
    apply mat_store_inv in Es as (x & -> & _ & _ & Hr & Hc & Hcell).
    apply IH in H as (Hr' & Hc' & vals & Hvals & Hlen & Hcell').
    split; [congruence | split; [congruence | ]].
    exists (x :: vals). cbn [curve_values]. rewrite Ev. cbn [bind]. rewrite Hvals. cbn [bind fst snd].
    split; [reflexivity | split; [cbn [length]; congruence | ]].
    intros i' j'. rewrite Hcell', Hcell. cbn [length].
    destruct (Nat.eqb_spec j' j); cbn [andb];
      [ | now rewrite Bool.andb_false_r].
    destruct (Nat.leb_spec (S idx) i'), (Nat.ltb_spec i' (S idx + length vals)),
      (Nat.leb_spec idx i'), (Nat.ltb_spec i' (idx + S (length vals))),
      (Nat.eqb_spec i' idx); cbn [andb]; try lia; try reflexivity.
    + replace (i' - idx)%nat with (S (i' - S idx)) by lia. reflexivity.
    + subst i'. now rewrite Nat.sub_diag.
Qed.

Lemma curves_loop_keeps (Re_range : list R) (epsDs : list R) :
  forall (M : matrix) (g : pynum) (j : nat) (M' : matrix) (g' : pynum),
    curves_loop epsDs Re_range M g j = Ok (M', g') ->
    rows M' = rows M /\ cols M' = cols M /\
    forall i' j', (j' < j)%nat -> cell M' i' j' = cell M i' j'.
Proof.
  induction epsDs as [ | epsD rest IH]; intros M g j M' g' H; cbn [curves_loop] in H.
  - injection H as <- _. repeat split.
  - destruct (curve_loop Re_range epsD j M g 0) as [[M1 g1] | | ] eqn:Ec;
      cbn [bind fst snd] in H; try discriminate.
    apply curve_loop_values in Ec as (Hr & Hc & vals & _ & _ & Hcell).
    apply IH in H as (Hr' & Hc' & Hcell').
    split; [congruence | split; [congruence | ]].
    intros i' j' Hj. rewrite Hcell' by lia. rewrite Hcell.
    destruct (Nat.eqb_spec j' j); [lia | reflexivity].
Qed.

Lemma curves_loop_app (Re_range : list R) (pre post : list R) :
  forall (M : matrix) (g : pynum) (j : nat),
    curves_loop (pre ++ post) Re_range M g j =
      (st <- curves_loop pre Re_range M g j ;;
       curves_loop post Re_range (fst st) (snd st) (j + length pre)).
Proof.
  induction pre as [ | epsD pre IH]; intros M g j; cbn [app curves_loop length bind fst snd].
  - now rewrite Nat.add_0_r.
  - destruct (curve_loop Re_range epsD j M g 0) as [[M1 g1] | | ]; cbn [bind fst snd];
      try reflexivity.
    rewrite IH. now replace (S j + length pre)%nat with (j + S (length pre))%nat by lia.
Qed.

(** ** A solve that starts on its root *)

Lemma log10_inv_pow (n : nat) : log10 (/ 10 ^ n) = - INR n.
Proof.
  unfold log10. pose proof ln_10_pos.
  rewrite ln_Rinv by (apply pow_lt; lra). rewrite ln_pow by lra. field. lra.
Qed.

Lemma log10_increasing (x y : R) : 0 < x -> x < y -> log10 x < log10 y.
Proof.
  intros Hx Hxy. unfold log10. pose proof ln_10_pos.
  apply Rmult_lt_compat_r; [now apply Rinv_0_lt_compat | now apply ln_increasing].
Qed.

Lemma sqrt_hundredth : sqrt 0.01 = 0.1.
Proof. replace 0.01 with (0.1 * 0.1) by lra. apply sqrt_square. lra. Qed.

(** At [Re = 2510000] and [epsD = 0] the guess [0.01] is a root of the
    residual: [1/sqrt(0.01) = 10] and [log10(2.51/(2510000*0.1)) = -5]. *)
Lemma smooth_root : colebrook_value 0.01 2510000 0 = 0.
Proof.
  unfold colebrook_value. rewrite (Rabs_pos_eq 0.01), sqrt_hundredth by lra.
  replace (2.51 / (2510000 * 0.1) + 0 / 3.72) with (/ 10 ^ 5) by lra.
  rewrite log10_inv_pow. simpl. lra.
Qed.

(** The smooth solve at [Re = 2510000] returns its seed [0.01] after one
    pass: the step is [0]. *)
Lemma smooth_curve_alone :
  newton (PFloat 0.01) 2510000 0 default_maxiter default_tol = Ok (PFloat 0.01, 1%Z).
Proof.
  pose proof smooth_root as Hroot.
  pose proof (colebrook_deriv_value_neg 0.01 2510000 0) as HD.
  assert (Habs : Rabs 0.01 = 0.01) by (apply Rabs_pos_eq; lra).
  set (D := colebrook_deriv_value 0.01 2510000 0) in *.
  rewrite (newton_returns_after 0.01 2510000 0 default_maxiter default_tol 0
             (PFloat (Rabs 0.01)) 0 (PFloat D) (PFloat (0 / D))).
  - cbn [py_sub]. rewrite Habs.
    replace (0.01 - 0 / D) with 0.01 by (unfold Rdiv; ring). reflexivity.
  - constructor.
  - rewrite Habs, colebrook_float; [now rewrite Hroot | lra | lra | apply log_arg_pos; lra].
  - rewrite Habs. apply colebrook_deriv_pos; try lra.
    apply three_halves_in_range_6. lra.
  - cbn [py_div]. rewrite py_fdiv_ok by lra. reflexivity.
  - cbn [py_abs]. unfold Rdiv, default_tol. rewrite Rmult_0_l, Rabs_R0. lra.
  - left. unfold default_maxiter. lia.
Qed.

Lemma curve_values_single (Re epsD : R) (g : pynum) (vals : list R) (g' : pynum) :
  curve_values [Re] epsD g = Ok (vals, g') ->
  exists x j,
    newton g Re epsD default_maxiter default_tol = Ok (PFloat x, j) /\
    vals = [x] /\ g' = PFloat x.
Proof.
  cbn [curve_values]. unfold newton_root.
  destruct (newton g Re epsD default_maxiter default_tol) as [[v j] | | ];
    cbn [bind fst snd]; try discriminate.
  destruct v as [x | re im]; [ | discriminate].
  intros H. injection H as <- <-. now exists x, j.
Qed.

Lemma ln_10_gt_2 : 2 < ln 10.
Proof.
  apply exp_lt_inv. rewrite exp_ln by lra.
  replace 2 with (1 + 1) by lra. rewrite exp_plus.
  pose proof exp_le_3. pose proof (exp_pos 1). nra.
Qed.

(** The call [newton(-0.01, 2.51e7, 0, tol=0.0035)]: from [|-0.01| = 0.01]
    the residual is [-2] and the first step is between [0.0036] and
    [0.004] ... *)
Lemma two_pass_first :
  colebrook_value 0.01 25100000 0 = -2 /\
  -550 < colebrook_deriv_value 0.01 25100000 0 < -500.
Proof.
  split.
  - unfold colebrook_value. rewrite (Rabs_pos_eq 0.01), sqrt_hundredth by lra.
    replace (2.51 / (25100000 * 0.1) + 0 / 3.72) with (/ 10 ^ 6) by lra.
    rewrite log10_inv_pow. simpl. lra.
  - unfold colebrook_deriv_value.
    rewrite (Rabs_pos_eq 0.01), Rpower_neg_three_halves, sqrt_hundredth by lra.
    replace (ln 10 * (0 / 3.72 + 2.51 / (25100000 * 0.1)) * 25100000)
      with (ln 10 * 25.1) by lra.
    pose proof ln_10_gt_2 as Hln.
    assert (Hq : 0 < 2 * 2.51 / (ln 10 * 25.1) < 0.1).
    { split; [apply Rdiv_lt_0_compat; lra | ].
      apply (Rmult_lt_reg_r (ln 10 * 25.1)); [lra | ].
      unfold Rdiv. rewrite Rmult_assoc, Rinv_l by lra. lra. }
    set (q := 2 * 2.51 / (ln 10 * 25.1)) in *.
    replace (/ (0.01 * 0.1)) with 1000 by lra. lra.
Qed.

(** ... and from a guess between [0.006] and [0.0064] the residual is
    between [0.5] and [3] and the slope below [-976]. *)
Lemma two_pass_second (x : R) :
  0.006 < x < 0.0064 ->
  0.5 < colebrook_value x 25100000 0 < 3 /\
  colebrook_deriv_value x 25100000 0 < -976.
Proof.
  intros Hx.
  assert (Hs : 0.077 < sqrt x < 0.08) by (apply sqrt_between; lra).
  set (s := sqrt x) in *.
  assert (Hu : 12.5 < 1 / s < 12.99).
  { split.
    - apply (Rmult_lt_reg_r s); [lra | ].
      unfold Rdiv. rewrite Rmult_assoc, Rinv_l by lra. lra.
    - apply (Rmult_lt_reg_r s); [lra | ].
      unfold Rdiv. rewrite Rmult_assoc, Rinv_l by lra. lra. }
  split.
  - unfold colebrook_value. rewrite (Rabs_pos_eq x) by lra. fold s.
    replace (2.51 / (25100000 * s) + 0 / 3.72) with (/ 10 ^ 7 * (1 / s))
      by (unfold Rdiv; rewrite Rinv_mult; lra).
    assert (Hl : log10 (/ 10 ^ 6) < log10 (/ 10 ^ 7 * (1 / s)) < log10 (/ 10 ^ 5)).
    { split; apply log10_increasing; lra. }
    rewrite !log10_inv_pow in Hl.
    replace (INR 6) with 6 in Hl by (simpl; lra).
    replace (INR 5) with 5 in Hl by (simpl; lra).
    lra.
  - unfold colebrook_deriv_value. rewrite (Rabs_pos_eq x) by lra. fold s.
    rewrite Rpower_neg_three_halves by lra. fold s.
    assert (Hp : 1953 < / (x * s)).
    { apply Rlt_trans with (/ (0.0064 * 0.08)); [lra | ].
      apply Rinv_lt_contravar; nra. }
    pose proof ln_10_pos as Hln.
    assert (Ht : 0 < 2.51 / (25100000 * s)) by (apply Rdiv_lt_0_compat; nra).
    assert (Hq : 0 < 2 * 2.51 / (ln 10 * (0 / 3.72 + 2.51 / (25100000 * s)) * 25100000)).
    { apply Rdiv_lt_0_compat; [lra | ].
      apply Rmult_lt_0_compat; [apply Rmult_lt_0_compat | ]; lra. }
    set (p := / (x * s)) in *.
    set (q := 2 * 2.51 / (ln 10 * (0 / 3.72 + 2.51 / (25100000 * s)) * 25100000)) in *.
    nra.
Qed.

Lemma newton_returns_first_small_step_witness :
  let c1 := colebrook_value 0.01 25100000 0 in
  let d1 := colebrook_deriv_value 0.01 25100000 0 in
  let x1 := 0.01 - c1 / d1 in
  let c2 := colebrook_value x1 25100000 0 in
  let d2 := colebrook_deriv_value x1 25100000 0 in
  0.0035 < c1 / d1 /\ c2 / d2 < 0 /\
  newton (PFloat (-0.01)) 25100000 0 100 0.0035 =
    Ok (PFloat (x1 - c2 / d2), (Z.of_nat 1 + 1)%Z).
Proof.
  intros c1 d1 x1 c2 d2.
  destruct two_pass_first as [Hc1 Hd1]. fold c1 in Hc1. fold d1 in Hd1.
  assert (Hs1 : 0.0036 < c1 / d1 < 0.004).
  { rewrite Hc1. replace (-2 / d1) with (2 / - d1) by (field; lra).
    split.
    - apply (Rmult_lt_reg_r (- d1)); [lra | ].
      unfold Rdiv. rewrite Rmult_assoc, Rinv_l by lra. lra.
    - apply (Rmult_lt_reg_r (- d1)); [lra | ].
      unfold Rdiv. rewrite Rmult_assoc, Rinv_l by lra. lra. }
  assert (Hx1 : 0.006 < x1 < 0.0064) by (unfold x1; lra).
  destruct (two_pass_second x1 Hx1) as [Hc2 Hd2]. fold c2 in Hc2. fold d2 in Hd2.
  assert (Hs2 : -0.0035 < c2 / d2 < 0).
  { replace (c2 / d2) with (- (c2 / - d2)) by (field; lra).
    assert (0 < c2 / - d2 < 0.0035); [ | lra].
    split; [apply Rdiv_lt_0_compat; lra | ].
    apply (Rmult_lt_reg_r (- d2)); [lra | ].
    unfold Rdiv. rewrite Rmult_assoc, Rinv_l by lra. nra. }
  assert (Habs : Rabs (-0.01) = 0.01) by (rewrite Rabs_left by lra; lra).
  split; [lra | split; [lra | ]].
  apply (newton_returns_first_small_step (-0.01) 25100000 0 100 0.0035 1 x1 c2 d2).
  - rewrite Habs. unfold x1.
    apply (float_iterates_S _ _ _ _ 0 0.01 c1 d1).
    + constructor.
    + apply colebrook_float; [lra | lra | apply log_arg_pos; lra].
    + apply colebrook_deriv_pos; try lra. apply three_halves_in_range_6. lra.
    + lra.
    + rewrite Rabs_pos_eq by lra. lra.
  - apply colebrook_float; [lra | lra | apply log_arg_pos; lra].
  - apply colebrook_deriv_pos; try lra. apply three_halves_in_range_6. lra.
  - lra.
  - rewrite Rabs_left by lra. lra.
  - left. lia.
Defined.


(** ** The exact root and the roughness *)

Lemma colebrook_value_decreasing (x y Re epsD : R) :
  0 < x -> x < y -> 0 < Re -> 0 <= epsD ->
  colebrook_value y Re epsD < colebrook_value x Re epsD.
Proof.
  intros Hx Hxy HRe Heps.
  assert (Hy : 0 < y) by lra.
  pose proof (sqrt_lt_R0 x Hx) as Hsx. pose proof (sqrt_lt_R0 y Hy) as Hsy.
  pose proof ln_10_pos as Hln.
  rewrite !colebrook_value_inv_sqrt by assumption.
  assert (Hs : sqrt x < sqrt y) by (apply sqrt_lt_1; lra).
  assert (Huv : / sqrt y < / sqrt x) by (apply Rinv_lt_contravar; nra).
  assert (Hv : 0 < / sqrt y) by now apply Rinv_0_lt_compat.
  assert (Ha : 0 < 2.51 / Re) by (apply Rdiv_lt_0_compat; lra).
  assert (Hb : 0 <= epsD / 3.72) by (apply Rle_mult_inv_pos; lra).
  assert (Hk : 0 < 2 / ln 10) by (apply Rdiv_lt_0_compat; lra).
  assert (Harg : ln (2.51 / Re * / sqrt y + epsD / 3.72)
                 < ln (2.51 / Re * / sqrt x + epsD / 3.72)).
  { apply ln_increasing; nra. }
  nra.
Qed.

Lemma colebrook_value_roughness (x Re e1 e2 : R) :
  0 < x -> 0 < Re -> 0 <= e1 -> e1 <= e2 ->
  colebrook_value x Re e1 <= colebrook_value x Re e2.
Proof.
  intros Hx HRe He1 He12.
  pose proof (sqrt_lt_R0 x Hx) as Hsx. pose proof ln_10_pos as Hln.
  rewrite !colebrook_value_inv_sqrt by assumption.
  assert (Hu : 0 < / sqrt x) by now apply Rinv_0_lt_compat.
  assert (Ha : 0 < 2.51 / Re) by (apply Rdiv_lt_0_compat; lra).
  assert (Hb : 0 <= e1 / 3.72) by (apply Rle_mult_inv_pos; lra).
  assert (Hk : 0 < 2 / ln 10) by (apply Rdiv_lt_0_compat; lra).
  assert (Harg : ln (2.51 / Re * / sqrt x + e1 / 3.72)
                 <= ln (2.51 / Re * / sqrt x + e2 / 3.72)).
  { destruct (Req_dec e1 e2) as [-> | Hne]; [lra | ].
    left. apply ln_increasing; nra. }
  nra.
Qed.

(** The exact positive roots of the residual are ordered like the roughness
    values.  This speaks of the roots, not of the approximations [newton]
    returns. *)
Lemma colebrook_root_monotone (f1 f2 Re e1 e2 : R) :
  0 < f1 -> 0 < f2 -> 0 < Re -> 0 <= e1 -> e1 <= e2 ->
  colebrook_value f1 Re e1 = 0 ->
  colebrook_value f2 Re e2 = 0 ->
  f1 <= f2.
Proof.
  intros Hf1 Hf2 HRe He1 He12 H1 H2.
  destruct (Rle_dec f1 f2) as [Hle | Hgt]; [assumption | exfalso].
  pose proof (colebrook_value_decreasing f2 f1 Re e1 Hf2 ltac:(lra) HRe He1).
  pose proof (colebrook_value_roughness f2 Re e1 e2 Hf2 HRe He1 He12).
  lra.
Qed.

(** ** The guess that enters the second curve of [moody] *)




Lemma last_cons_default {A : Type} (a d : A) (l : list A) :
  last (a :: l) d = last l a.
Proof.
  revert a d. induction l as [ | b l IH]; intros a d; [reflexivity | ].
  change (last (a :: b :: l) d) with (last (b :: l) d).
  now rewrite (IH b d), (IH b a).
Qed.

(** The values of one curve: each solve is seeded with the value before it,
    the first with the guess the loop was entered with, and the guess left
    is the last value. *)
Lemma curve_values_chain (epsD : R) (Re_range : list R) :
  forall (g : pynum) (vals : list R) (g' : pynum),
    curve_values Re_range epsD g = Ok (vals, g') ->
    length vals = length Re_range /\
    g' = last (map PFloat vals) g /\
    forall i, (i < length Re_range)%nat ->
      exists k,
        newton (nth i (g :: map PFloat vals) g) (nth i Re_range 0) epsD
               default_maxiter default_tol
        = Ok (PFloat (nth i vals 0), k).
Proof.
  induction Re_range as [ | Re rest IH]; intros g vals g' H; cbn [curve_values] in H.
  - injection H as <- <-. repeat split. intros i Hi. cbn in Hi. lia.
  - unfold newton_root in H.
    destruct (newton g Re epsD default_maxiter default_tol) as [[v k] | | ] eqn:Ev;
      cbn [bind fst] in H; try discriminate.
    destruct v as [x | re im]; [ | discriminate].
    destruct (curve_values rest epsD (PFloat x)) as [[vals' g''] | | ] eqn:Er;
      cbn [bind fst snd] in H; try discriminate.
    injection H as <- <-.
    apply IH in Er as (Hlen & Hlast & Hchain).
    split; [cbn [length]; lia | split].
    + cbn [map]. now rewrite last_cons_default.
    + intros [ | i] Hi.
      * exists k. exact Ev.
      * cbn [length] in Hi. destruct (Hchain i ltac:(lia)) as [k' Hk'].
        exists k'.
        change (nth (S i) (g :: map PFloat (x :: vals')) g)
          with (nth i (PFloat x :: map PFloat vals') g).
        change (nth (S i) (Re :: rest) 0) with (nth i rest 0).
        change (nth (S i) (x :: vals') 0) with (nth i vals' 0).
        rewrite (nth_indep (PFloat x :: map PFloat vals') g (PFloat x))
          by (cbn [length]; rewrite length_map; lia).
        exact Hk'.
Qed.

(** The column of one curve of a run, with the values it holds and the guess
    the curve was entered with. *)
Lemma curves_column (pre post : list R) (epsD : R) (Re_range : list R)
    (M : matrix) (g : pynum) :
  turbulent_data (pre ++ epsD :: post) Re_range = Ok (M, g) ->
  exists (M0 : matrix) (seed : pynum) (vals : list R) (M1 : matrix) (g1 : pynum),
    curves_loop pre Re_range
      (np_zeros (length Re_range) (length (pre ++ epsD :: post))) (PFloat 0.01) 0
      = Ok (M0, seed) /\
    curve_values Re_range epsD seed = Ok (vals, g1) /\
    curves_loop (pre ++ [epsD]) Re_range
      (np_zeros (length Re_range) (length (pre ++ epsD :: post))) (PFloat 0.01) 0
      = Ok (M1, g1) /\
    forall k, (k < length Re_range)%nat -> cell M k (length pre) = nth k vals 0.
Proof.
  unfold turbulent_data. rewrite curves_loop_app.
  set (Z0 := np_zeros _ _).
  destruct (curves_loop pre Re_range Z0 (PFloat 0.01) 0) as [[M0 seed] | | ] eqn:Epre;
    cbn [bind fst snd]; try discriminate.
  cbn [curves_loop Nat.add].
  destruct (curve_loop Re_range epsD (length pre) M0 seed 0) as [[M1 g1] | | ] eqn:Ec;
    cbn [bind fst snd]; try discriminate.
  intros Hpost.
  pose proof Ec as Ec'.
  apply curve_loop_values in Ec' as (_ & _ & vals & Hvals & Hlen & Hcell).
  apply curves_loop_keeps in Hpost as (_ & _ & Hkeep).
  exists M0, seed, vals, M1, g1.
  split; [reflexivity | split; [exact Hvals | split]].
  - rewrite curves_loop_app, Epre. cbn [bind fst snd curves_loop Nat.add].
    now rewrite Ec.
  - intros k Hk. rewrite Hkeep by lia. rewrite Hcell, Nat.eqb_refl. cbn [andb Nat.leb].
    destruct (Nat.ltb_spec k (0 + length vals)); [now rewrite Nat.sub_0_r | lia].
Qed.

Lemma split_at (j : nat) (l : list R) :
  (j < length l)%nat ->
  l = firstn j l ++ nth j l 0 :: skipn (S j) l /\ length (firstn j l) = j.
Proof.
  revert j. induction l as [ | a l IH]; intros j Hj; [cbn in Hj; lia | ].
  destruct j as [ | j]; [now split | ].
  cbn [length] in Hj. destruct (IH j ltac:(lia)) as [E Hlen].
  split; [ | cbn [firstn length]; now rewrite Hlen].
  change (skipn (S (S j)) (a :: l)) with (skipn (S j) l).
  cbn [firstn nth app]. f_equal. exact E.
Qed.

(** The three links of the chain, for a run of the two loops that returns. *)
Lemma turbulent_chain (epsDs Re_range : list R) (M : matrix) (g : pynum) :
  turbulent_data epsDs Re_range = Ok (M, g) ->
  (forall j i, (j < length epsDs)%nat -> (S i < length Re_range)%nat ->
     exists k, newton (PFloat (cell M i j)) (nth (S i) Re_range 0) (nth j epsDs 0)
                      default_maxiter default_tol
               = Ok (PFloat (cell M (S i) j), k)) /\
  ((0 < length epsDs)%nat -> (0 < length Re_range)%nat ->
     exists k, newton (PFloat 0.01) (nth 0 Re_range 0) (nth 0 epsDs 0)
                      default_maxiter default_tol
               = Ok (PFloat (cell M 0 0), k)) /\
  (forall j, (S j < length epsDs)%nat -> (0 < length Re_range)%nat ->
     exists k, newton (PFloat (cell M (length Re_range - 1) j))
                      (nth 0 Re_range 0) (nth (S j) epsDs 0)
                      default_maxiter default_tol
               = Ok (PFloat (cell M 0 (S j)), k)).
Proof.
  intros H. split; [ | split].
  - intros j i Hj Hi.
    destruct (split_at j epsDs Hj) as [E Hlen]. rewrite E in H.
    apply curves_column in H as (M0 & seed & vals & M1 & g1 & _ & Hvals & _ & Hcol).
    rewrite Hlen in Hcol.
    apply curve_values_chain in Hvals as (Hl & _ & Hchain).
    destruct (Hchain (S i) Hi) as [k Hk]. exists k.
    rewrite !Hcol by lia. cbn [nth] in Hk.
    rewrite (nth_indep (map PFloat vals) seed (PFloat 0)) in Hk
      by (rewrite length_map; lia).
    now rewrite (map_nth PFloat vals 0 i) in Hk.
  - intros He HR.
    destruct epsDs as [ | e epsDs]; [cbn in He; lia | ].
    apply (curves_column [] epsDs e) in H
      as (M0 & seed & vals & M1 & g1 & Hpre & Hvals & _ & Hcol).
    cbn [curves_loop] in Hpre. injection Hpre as _ <-.
    apply curve_values_chain in Hvals as (_ & _ & Hchain).
    destruct (Hchain 0%nat HR) as [k Hk]. exists k.
    cbn [length] in Hcol. rewrite Hcol by lia. exact Hk.
  - intros j Hj HR.
    assert (Hj' : (j < length epsDs)%nat) by lia.
    destruct (split_at j epsDs Hj') as [E Hlen].
    destruct (split_at (S j) epsDs Hj) as [E' Hlen'].
    assert (Hpre : firstn (S j) epsDs = firstn j epsDs ++ [nth j epsDs 0]).
    { clear - Hj'. revert j Hj'. induction epsDs as [ | a l IH]; intros j Hj;
        [cbn in Hj; lia | ].
      destruct j as [ | j]; [reflexivity | ].
      cbn [length] in Hj. cbn [firstn nth app]. now rewrite <- IH by lia. }
    pose proof H as H1. rewrite E in H1.
    apply curves_column in H1 as (Ma & sa & vals & Mb & gb & _ & Hvals & Hnext & Hcol).
    rewrite Hlen in Hcol. rewrite <- E in Hnext.
    pose proof H as H2. rewrite E' in H2.
    apply curves_column in H2 as (Mc & sc & vals' & Md & gd & Hseed & Hvals' & _ & Hcol').
    rewrite Hlen' in Hcol'. rewrite <- E' in Hseed.
    rewrite Hpre, Hnext in Hseed. injection Hseed as _ <-.
    apply curve_values_chain in Hvals as (Hl & Hlast & _).
    apply curve_values_chain in Hvals' as (_ & _ & Hchain').
    destruct (Hchain' 0%nat HR) as [k Hk]. exists k.
    rewrite Hcol, Hcol' by lia. cbn [nth] in Hk.
    assert (Hgb : gb = PFloat (nth (length Re_range - 1) vals 0)).
    { rewrite Hlast. destruct vals as [ | x vals] using rev_ind; [cbn in Hl; lia | ].
      rewrite map_app. cbn [map]. rewrite last_last.
      rewrite length_app in Hl. cbn [length] in Hl.
      rewrite app_nth2 by lia. replace (length Re_range - 1 - length vals)%nat with 0%nat by lia.
      reflexivity. }
    now rewrite <- Hgb.
Qed.





(** * Further properties of the code *)

(** ** The Equation Core *)

(** X1: [colebrook] sees its first argument only through [math.fabs]: a
    guess and its negative give the same outcome. *)
Theorem colebrook_ignores_sign (f Re epsD : R) :
  colebrook (PFloat (- f)) Re epsD = colebrook (PFloat f) Re epsD.
Proof.
  unfold colebrook. cbn [py_fabs]. now rewrite Rabs_Ropp.
Qed.

Lemma colebrook_Re_zero (f epsD : R) :
  colebrook (PFloat f) 0 epsD = Raise ZeroDivisionError.
Proof.
  destruct (Req_dec f 0) as [-> | Hf]; [apply colebrook_zero | ].
  pose proof (sqrt_Rabs_pos f Hf) as Hs.
  unfold colebrook. cbn [py_fabs bind]. repeat ok_step.
  rewrite Rmult_0_l, py_fdiv_zero. reflexivity.
Qed.

Lemma colebrook_value_error (f Re epsD : R) :
  f <> 0 -> Re <> 0 -> log_arg f Re epsD <= 0 ->
  colebrook (PFloat f) Re epsD = Raise ValueError.
Proof.
  intros Hf HRe Harg. pose proof (sqrt_Rabs_pos f Hf) as Hs.
  assert (Re * sqrt (Rabs f) <> 0) by (apply Rmult_integral_contrapositive_currified; lra).
  unfold colebrook. cbn [py_fabs bind]. repeat ok_step.
  unfold py_log10. fold (log_arg f Re epsD).
  destruct (Rle_dec (log_arg f Re epsD) 0); [reflexivity | contradiction].
Qed.

(** X2: the outcomes of [colebrook] on a float guess.  It raises
    [ZeroDivisionError] when the guess or the Reynolds number is zero,
    [ValueError] (from [math.log10]) when neither is zero and
    [2.51/(Re*sqrt(|f|)) + epsD/3.72 <= 0], and returns a float otherwise. *)
Theorem colebrook_outcomes (f Re epsD : R) :
  (f = 0 \/ Re = 0 -> colebrook (PFloat f) Re epsD = Raise ZeroDivisionError) /\
  (f <> 0 -> Re <> 0 -> 2.51 / (Re * sqrt (Rabs f)) + epsD / 3.72 <= 0 ->
   colebrook (PFloat f) Re epsD = Raise ValueError) /\
  (f <> 0 -> Re <> 0 -> 0 < 2.51 / (Re * sqrt (Rabs f)) + epsD / 3.72 ->
   exists v, colebrook (PFloat f) Re epsD = Ok v).
Proof.
  split; [ | split].
  - intros [-> | ->]; [apply colebrook_zero | apply colebrook_Re_zero].
  - intros Hf HRe Harg. now apply colebrook_value_error.
  - intros Hf HRe Harg. eexists. now apply colebrook_float.
Qed.

Lemma colebrook_outcomes_witness :
  colebrook (PFloat 1) (-1) 0 = Raise ValueError.
Proof.
  apply (proj1 (proj2 (colebrook_outcomes 1 (-1) 0))); try lra.
  rewrite Rabs_R1, sqrt_1. lra.
Defined.

Lemma smooth_root_outcome : colebrook (PFloat 0.01) 2510000 0 = Ok 0.
Proof.
  rewrite colebrook_float; [now rewrite smooth_root | lra | lra | apply log_arg_pos; lra].
Qed.

(** ** The Root Solver *)



(** X7: with [maxiter <= 0] the loop body never runs: [newton] returns the
    absolute value of the seed with the count [0], whatever [Re], [epsD] and
    [tol] are, and without a call of the Equation Core. *)
Theorem newton_no_budget (x0 Re epsD : R) (maxiter : Z) (tol : R) :
  (maxiter <= 0)%Z ->
  newton (PFloat x0) Re epsD maxiter tol = Ok (PFloat (Rabs x0), 0%Z).
Proof.
  intros Hm. unfold newton. cbn [py_fabs bind]. now apply newton_loop_exit.
Qed.

Lemma newton_no_budget_witness :
  newton (PFloat (-3)) 0 0 0 1e-9 = Ok (PFloat (Rabs (-3)), 0%Z).
Proof. apply (newton_no_budget (-3) 0 0 0 1e-9). lia. Defined.

(** X8: the seed [0], with a budget of at least one pass, ends in
    [ZeroDivisionError]: the first call of [colebrook] divides by
    [math.sqrt(0.0)]. *)
Theorem newton_zero_seed (Re epsD : R) (maxiter : Z) (tol : R) :
  (0 < maxiter)%Z ->
  newton (PFloat 0) Re epsD maxiter tol = Raise ZeroDivisionError.
Proof.
  intros Hm. unfold newton. cbn [py_fabs bind]. rewrite Rabs_R0.
  replace (Z.to_nat maxiter) with (S (Z.to_nat (maxiter - 1))) by lia.
  rewrite newton_loop_unfold by lia.
  unfold newton_body. now rewrite colebrook_zero.
Qed.

Lemma newton_zero_seed_witness :
  newton (PFloat 0) 1e5 0.001 100 1e-9 = Raise ZeroDivisionError.
Proof. apply (newton_zero_seed 1e5 0.001 100 1e-9). lia. Defined.

(** X9: with [maxiter >= 2] a value is returned only out of a pass whose
    step was strictly below the tolerance: [newton] never returns an
    unconverged guess. *)
Theorem newton_returns_only_converged (x0 : pynum) (Re epsD : R) (maxiter : Z)
    (tol : R) (x : pynum) (i : Z) :
  (2 <= maxiter)%Z ->
  newton x0 Re epsD maxiter tol = Ok (x, i) ->
  exists y c d res,
    colebrook y Re epsD = Ok c /\ colebrook_deriv y Re epsD = Ok d /\
    py_div (PFloat c) d = Ok res /\ py_abs res < tol /\ x = py_sub y res.
Proof. apply newton_returns_converged. Qed.

Lemma newton_returns_only_converged_witness :
  exists y c d res,
    colebrook y 2510000 0 = Ok c /\ colebrook_deriv y 2510000 0 = Ok d /\
    py_div (PFloat c) d = Ok res /\ py_abs res < 1e-9 /\ PFloat 0.01 = py_sub y res.
Proof.
  apply (newton_returns_only_converged (PFloat 0.01) 2510000 0 100 1e-9 (PFloat 0.01) 1).
  - lia.
  - exact smooth_curve_alone.
Defined.

(** X10: the non-convergence exception is raised by pass number
    [maxiter - 1]: after [maxiter - 2] updates without a small step, a
    further pass whose step is not below the tolerance raises it. *)
Theorem newton_raises_at_pass_maxiter_minus_1 (x0 Re epsD : R) (maxiter : Z) (tol : R)
    (n : nat) (x : pynum) (c : R) (d res : pynum) :
  iterates Re epsD tol (PFloat (Rabs x0)) n x ->
  colebrook x Re epsD = Ok c ->
  colebrook_deriv x Re epsD = Ok d ->
  py_div (PFloat c) d = Ok res ->
  ~ py_abs res < tol ->
  (Z.of_nat n + 1)%Z = (maxiter - 1)%Z ->
  newton (PFloat x0) Re epsD maxiter tol = Raise RootNotFound.
Proof.
  intros Hit Hc Hd Hres Hge Hn.
  assert (Hreach : newton_reaches (PFloat x0) Re epsD maxiter tol x (Z.of_nat n)).
  { apply iterates_reaches; [assumption | left; lia]. }
  apply newton_reaches_loop in Hreach as [_ ->].
  replace (Z.to_nat (maxiter - Z.of_nat n))
    with (S (Z.to_nat (maxiter - (Z.of_nat n + 1)))) by lia.
  rewrite newton_loop_unfold by lia.
  rewrite (newton_body_continues _ _ _ _ _ _ c d res) by assumption.
  destruct (Z.eqb_spec (Z.of_nat n + 1) (maxiter - 1)); [reflexivity | contradiction].
Qed.

Lemma newton_raises_at_pass_maxiter_minus_1_witness :
  newton (PFloat 1000) 1e5 0.001 2 1e-9 = Raise RootNotFound.
Proof.
  destruct far_seed_step as (Hc & Hd & Hres & Hbig & Hsmall).
  apply (newton_raises_at_pass_maxiter_minus_1 1000 1e5 0.001 2 1e-9 0 _ _ _ _
           (iterates_O _ _ _ _) Hc Hd Hres).
  - cbn [py_abs]. rewrite Rabs_pos_eq by lra. lra.
  - reflexivity.
Defined.

(** X28: a positive seed that is an exact root.  If [colebrook] returns
    [0] at [x0 > 0], then for every positive tolerance and every budget of
    at least one pass: when [x0 ** (-3/2)] is inside the range of a float,
    [newton] returns [(x0, 1)], the seed as it is; when the power is too
    large for a float the call raises [OverflowError]; when it is so small
    that it becomes zero, the step is [0/0] and the call raises
    [ZeroDivisionError]. *)
Theorem newton_seeded_with_a_root (x0 Re epsD : R) (maxiter : Z) (tol : R) :
  0 < x0 -> 0 < Re -> 0 <= epsD -> 0 < tol -> (1 <= maxiter)%Z ->
  colebrook (PFloat x0) Re epsD = Ok 0 ->
  (in_pow_range (Rpower x0 (-3/2)) ->
   newton (PFloat x0) Re epsD maxiter tol = Ok (PFloat x0, 1%Z)) /\
  (pow_overflow <= Rpower x0 (-3/2) ->
   newton (PFloat x0) Re epsD maxiter tol = Raise OverflowError) /\
  (Rpower x0 (-3/2) <= pow_underflow ->
   newton (PFloat x0) Re epsD maxiter tol = Raise ZeroDivisionError).
Proof.
  intros Hx HRe Heps Htol Hm Hroot.
  pose proof (colebrook_deriv_value_neg x0 Re epsD Hx HRe Heps) as HD.
  pose proof (Rpower_pos x0 (-3/2)) as Hp.
  assert (Habs : Rabs x0 = x0) by (apply Rabs_pos_eq; lra).
  assert (Hloop : newton (PFloat x0) Re epsD maxiter tol =
                  match newton_body Re epsD maxiter tol (PFloat x0) 0 with
                  | Ok (Break x0' i') => Ok (x0', i')
                  | Ok (Next x0' i') =>
                      newton_loop (Z.to_nat (maxiter - 1)) Re epsD maxiter tol x0' i'
                  | Raise e => Raise e
                  | OutOfFuel => OutOfFuel
                  end).
  { unfold newton. cbn [py_fabs bind]. rewrite Habs.
    replace (Z.to_nat maxiter) with (S (Z.to_nat (maxiter - 1))) by lia.
    now rewrite newton_loop_unfold by lia. }
  split; [ | split].
  - intros Hr. set (D := colebrook_deriv_value x0 Re epsD) in *.
    rewrite Hloop.
    rewrite (newton_body_converged _ _ _ _ _ _ 0 (PFloat D) (PFloat (0 / D))).
    + cbn [py_sub]. replace (x0 - 0 / D) with x0 by (unfold Rdiv; ring). reflexivity.
    + exact Hroot.
    + now apply colebrook_deriv_pos.
    + cbn [py_div]. rewrite py_fdiv_ok by lra. reflexivity.
    + cbn [py_abs]. unfold Rdiv. rewrite Rmult_0_l, Rabs_R0. lra.
  - intros Hov. rewrite Hloop. unfold newton_body. rewrite Hroot. cbn [bind].
    rewrite colebrook_deriv_float by assumption.
    rewrite py_pow_range_overflow by (rewrite Rabs_pos_eq; lra). reflexivity.
  - intros Hun. rewrite Hloop. unfold newton_body. rewrite Hroot. cbn [bind].
    rewrite colebrook_deriv_float by assumption.
    rewrite py_pow_range_underflow by (rewrite Rabs_pos_eq; lra).
    cbn [bind py_div]. rewrite Rmult_0_r, Rmult_0_l, py_fdiv_zero. reflexivity.
Qed.

Lemma newton_seeded_with_a_root_witness :
  newton (PFloat 0.01) 2510000 0 1 0.5 = Ok (PFloat 0.01, 1%Z).
Proof.
  apply (newton_seeded_with_a_root 0.01 2510000 0 1 0.5); try lra; try lia.
  - apply smooth_root_outcome.
  - apply three_halves_in_range_6. lra.
Defined.

(** The three ways a pass from a positive float guess inside the range can
    end. *)
Lemma newton_pass_step (z Re epsD : R) (maxiter : Z) (tol : R) (i : Z) :
  0 < z -> 0 < Re -> 0 <= epsD -> in_pow_range (Rpower z (-3/2)) ->
  let z' := z - colebrook_value z Re epsD / colebrook_deriv_value z Re epsD in
  newton_body Re epsD maxiter tol (PFloat z) i = Ok (Break (PFloat z') (i + 1)) \/
  newton_body Re epsD maxiter tol (PFloat z) i = Ok (Next (PFloat z') (i + 1)) \/
  newton_body Re epsD maxiter tol (PFloat z) i = Raise RootNotFound.
Proof.
  intros Hz HRe Heps Hr z'.
  pose proof (colebrook_deriv_value_neg z Re epsD Hz HRe Heps) as HD.
  assert (Hc : colebrook (PFloat z) Re epsD = Ok (colebrook_value z Re epsD)).
  { apply colebrook_float; [lra | lra | apply log_arg_pos; lra]. }
  assert (Hd : colebrook_deriv (PFloat z) Re epsD
               = Ok (PFloat (colebrook_deriv_value z Re epsD))).
  { now apply colebrook_deriv_pos. }
  unfold z'.
  set (c := colebrook_value z Re epsD) in *.
  set (d := colebrook_deriv_value z Re epsD) in *.
  assert (Hres : py_div (PFloat c) (PFloat d) = Ok (PFloat (c / d))).
  { cbn [py_div]. rewrite py_fdiv_ok by lra. reflexivity. }
  destruct (Rlt_dec (py_abs (PFloat (c / d))) tol) as [Hlt | Hge].
  - left. now rewrite (newton_body_converged _ _ _ _ _ _ c (PFloat d) (PFloat (c / d))).
  - right.
    rewrite (newton_body_continues _ _ _ _ _ _ c (PFloat d) (PFloat (c / d))) by assumption.
    destruct (Z.eqb_spec (i + 1) (maxiter - 1)); [now right | now left].
Qed.

(** From a float guess at or above [lo > 0] with a non-negative residual,
    where such guesses keep the power inside the range, the loop can only
    return such a guess or raise the non-convergence exception. *)
Lemma newton_loop_from_left (Re epsD : R) (maxiter : Z) (tol lo : R) :
  0 < Re -> 0 <= epsD -> 0 < lo ->
  (forall z, lo <= z -> 0 <= colebrook_value z Re epsD ->
             in_pow_range (Rpower z (-3/2))) ->
  forall (fuel : nat) (z : R) (i : Z),
    lo <= z -> 0 <= colebrook_value z Re epsD ->
    (maxiter - i <= Z.of_nat fuel)%Z ->
    (exists w j, newton_loop fuel Re epsD maxiter tol (PFloat z) i = Ok (PFloat w, j) /\
                 lo <= w /\ 0 <= colebrook_value w Re epsD) \/
    newton_loop fuel Re epsD maxiter tol (PFloat z) i = Raise RootNotFound.
Proof.
  intros HRe Heps Hlo Hrange. induction fuel as [ | fuel IH]; intros z i Hz HF Hfuel.
  - left. exists z, i. rewrite newton_loop_exit by lia. now repeat split.
  - destruct (Z.lt_ge_cases i maxiter) as [Hi | Hi].
    + rewrite newton_loop_unfold by assumption.
      destruct (newton_step_left z Re epsD ltac:(lra) HRe Heps HF) as (Hle & Hnn & _).
      destruct (newton_pass_step z Re epsD maxiter tol i ltac:(lra) HRe Heps
                  (Hrange z Hz HF))
        as [-> | [-> | ->]].
      * left. do 2 eexists. split; [reflexivity | split; [lra | exact Hnn]].
      * apply IH; [lra | exact Hnn | lia].
      * now right.
    + left. exists z, i. rewrite newton_loop_exit by lia. now repeat split.
Qed.

Lemma log10_nondecreasing (x y : R) : 0 < x -> x <= y -> log10 x <= log10 y.
Proof.
  intros Hx [Hlt | ->]; [left; now apply log10_increasing | lra].
Qed.

(** The seed [0.01] of the main script is at or below the root as long as
    [Re <= 2510000]. *)
Lemma main_seed_left (Re epsD : R) :
  0 < Re -> Re <= 2510000 -> 0 <= epsD -> 0 <= colebrook_value 0.01 Re epsD.
Proof.
  intros HRe HRe' Heps.
  unfold colebrook_value. rewrite (Rabs_pos_eq 0.01), sqrt_hundredth by lra.
  assert (Ht : / 10 ^ 5 <= 2.51 / (Re * 0.1)).
  { replace (/ 10 ^ 5) with (2.51 / (2510000 * 0.1)) by lra.
    unfold Rdiv. apply Rmult_le_compat_l; [lra | ].
    apply Rinv_le_contravar; lra. }
  assert (He : 0 <= epsD / 3.72) by (apply Rle_mult_inv_pos; lra).
  assert (H : log10 (/ 10 ^ 5) <= log10 (2.51 / (Re * 0.1) + epsD / 3.72)).
  { apply log10_nondecreasing; [ | lra].
    apply Rinv_0_lt_compat, pow_lt. lra. }
  rewrite log10_inv_pow in H. replace (INR 5) with 5 in H by (simpl; lra). lra.
Qed.

(** In the turbulent regime with [epsD <= 0.05], a guess whose residual is
    not negative lies below [1]. *)
Lemma residual_nonneg_below_1 (z Re epsD : R) :
  0 < z -> 2040 <= Re -> 0 <= epsD <= 0.05 ->
  0 <= colebrook_value z Re epsD -> z < 1.
Proof.
  intros Hz HRe Heps HF.
  destruct (Rlt_dec z 1) as [ | Hge]; [assumption | exfalso].
  unfold colebrook_value in HF. rewrite (Rabs_pos_eq z) in HF by lra.
  assert (Hs : 1 <= sqrt z) by (rewrite <- sqrt_1; apply sqrt_le_1_alt; lra).
  set (s := sqrt z) in *.
  assert (H1 : 1 / s <= 1).
  { apply (Rmult_le_reg_r s); [lra | ].
    unfold Rdiv. rewrite Rmult_assoc, Rinv_l by lra. lra. }
  assert (H2 : 0 < 2.51 / (Re * s) <= 2.51 / 2040).
  { split; [apply Rdiv_lt_0_compat; nra | ].
    unfold Rdiv. apply Rmult_le_compat_l; [lra | ].
    apply Rinv_le_contravar; nra. }
  assert (H3 : 0 <= epsD / 3.72 <= 0.05 / 3.72) by lra.
  assert (H4 : log10 (2.51 / (Re * s) + epsD / 3.72) < log10 (/ 10 ^ 1)).
  { apply log10_increasing; lra. }
  rewrite log10_inv_pow in H4. replace (INR 1) with 1 in H4 by (simpl; lra). lra.
Qed.

(** X14: in the main script's regime switch, a turbulent Reynolds number up
    to [2500000] with a relative roughness up to [0.05] gives either a float
    friction factor of at least [0.01], the seed, or the non-convergence
    exception; no other failure is possible there. *)
Theorem friction_factor_moderate_Re (Re epsD : R) :
  2040 < Re -> Re <= 2500000 -> 0 <= epsD -> epsD <= 0.05 ->
  (exists Fd, friction_factor Re epsD = Ok (PFloat Fd) /\ 0.01 <= Fd) \/
  friction_factor Re epsD = Raise RootNotFound.
Proof.
  intros HRe HRe' Heps Heps'. unfold friction_factor, newton_root, newton.
  destruct (Rle_dec Re 2040); [lra | ].
  pose proof (main_seed_left Re epsD ltac:(lra) ltac:(lra) Heps) as Hseed.
  cbn [py_fabs bind]. rewrite (Rabs_pos_eq 0.01) by lra.
  destruct (newton_loop_from_left Re epsD default_maxiter default_tol 0.01
              ltac:(lra) Heps ltac:(lra)) with
      (fuel := Z.to_nat default_maxiter) (z := 0.01) (i := 0%Z)
    as [(w & j & -> & Hw & _) | ->]; try lra; try lia.
  - intros z Hz HF. apply three_halves_in_range_6.
    pose proof (residual_nonneg_below_1 z Re epsD ltac:(lra) ltac:(lra) ltac:(lra) HF).
    lra.
  - left. exists w. cbn [bind fst]. now split.
  - now right.
Qed.

Lemma friction_factor_moderate_Re_witness :
  (exists Fd, friction_factor 1e5 0.001 = Ok (PFloat Fd) /\ 0.01 <= Fd) \/
  friction_factor 1e5 0.001 = Raise RootNotFound.
Proof. apply (friction_factor_moderate_Re 1e5 0.001); lra. Defined.

(** ** One record of the main script *)

Lemma square_in_range (v : R) :
  / 10 ^ 150 <= Rabs v <= 10 ^ 150 -> in_pow_range (v * v).
Proof.
  intros [Hlo Hhi]. apply in_pow_range_moderate. rewrite Rabs_mult.
  assert (H150 : 0 < 10 ^ 150) by (apply pow_lt; lra).
  assert (Hi150 : 0 < / 10 ^ 150) by now apply Rinv_0_lt_compat.
  change (10 ^ 300) with (10 ^ (150 + 150)). rewrite pow_add, Rinv_mult.
  split; apply Rmult_le_compat; lra.
Qed.

(** X15: for a record of positive fields in the laminar regime the main
    script computes the friction factor [64/Re] and, when [velocity**2] is
    inside the range of a float, the pressure loss
    [32 * viscosity * velocity / diameter^2], the Hagen-Poiseuille value;
    the roughness plays no part.  When [velocity**2] is too large for a
    float the record raises [OverflowError]. *)
Theorem process_record_laminar (diameter velocity density viscosity roughness : R) :
  0 < diameter -> 0 < velocity -> 0 < density -> 0 < viscosity ->
  diameter * velocity * density / viscosity <= 2040 ->
  (in_pow_range (velocity * velocity) ->
   process_record diameter velocity density viscosity roughness =
     Ok (diameter * velocity * density / viscosity,
         PFloat (64 / (diameter * velocity * density / viscosity)),
         PFloat (32 * viscosity * velocity / (diameter * diameter)))) /\
  (pow_overflow <= velocity * velocity ->
   process_record diameter velocity density viscosity roughness = Raise OverflowError).
Proof.
  intros Hd Hv Hrho Hmu HRe.
  assert (HRe0 : 0 < diameter * velocity * density / viscosity).
  { apply Rdiv_lt_0_compat; [ | assumption]. repeat apply Rmult_lt_0_compat; assumption. }
  rewrite process_record_friction by assumption.
  unfold friction_factor.
  destruct (Rle_dec (diameter * velocity * density / viscosity) 2040); [ | contradiction].
  rewrite py_fdiv_ok by lra. cbn [bind]. rewrite py_pow_square.
  split.
  - intros Hr. rewrite py_pow_range_ok by assumption. cbn [bind py_mul py_div].
    rewrite py_fdiv_ok by lra. cbn [bind].
    do 3 f_equal. field. repeat split; lra.
  - intros Hov. rewrite py_pow_range_overflow; [reflexivity | ].
    rewrite Rabs_pos_eq by nra. exact Hov.
Qed.

Lemma process_record_laminar_witness :
  process_record 0.1 0.02 1000 0.001 0.05 =
    Ok (0.1 * 0.02 * 1000 / 0.001,
        PFloat (64 / (0.1 * 0.02 * 1000 / 0.001)),
        PFloat (32 * 0.001 * 0.02 / (0.1 * 0.1))) /\
  process_record 1 (10 ^ 200) 1 (10 ^ 200) 0.05 = Raise OverflowError.
Proof.
  assert (H200 : 0 < 10 ^ 200) by (apply pow_lt; lra).
  split.
  - apply (proj1 (process_record_laminar 0.1 0.02 1000 0.001 0.05
                    ltac:(lra) ltac:(lra) ltac:(lra) ltac:(lra) ltac:(lra))).
    apply square_in_range. rewrite Rabs_pos_eq by lra.
    assert (10 ^ 2 <= 10 ^ 150) by (apply Rle_pow; [lra | lia]).
    assert (/ 10 ^ 150 <= / 10 ^ 2) by (apply Rinv_le_contravar; lra).
    lra.
  - assert (HRe : 1 * 10 ^ 200 * 1 / 10 ^ 200 <= 2040).
    { replace (1 * 10 ^ 200 * 1 / 10 ^ 200) with 1 by (field; lra). lra. }
    apply (proj2 (process_record_laminar 1 (10 ^ 200) 1 (10 ^ 200) 0.05
                    ltac:(lra) H200 ltac:(lra) H200 HRe)).
    exact square_overflow.
Defined.

(** X16: a record in which the diameter, the velocity, the density or the
    viscosity is zero raises [ZeroDivisionError]: in the Reynolds number, in
    the relative roughness, or, the Reynolds number being zero, in [64/Re]. *)
Theorem process_record_zero_field (diameter velocity density viscosity roughness : R) :
  diameter = 0 \/ velocity = 0 \/ density = 0 \/ viscosity = 0 ->
  process_record diameter velocity density viscosity roughness = Raise ZeroDivisionError.
Proof.
  intros H. unfold process_record.
  destruct (Req_dec viscosity 0) as [-> | Hmu]; [now rewrite py_fdiv_zero | ].
  rewrite (py_fdiv_ok _ viscosity), (py_fdiv_ok _ 1000) by lra. cbn [bind].
  destruct (Req_dec diameter 0) as [-> | Hd]; [now rewrite py_fdiv_zero | ].
  rewrite py_fdiv_ok by assumption. cbn [bind].
  assert (HRe : diameter * velocity * density / viscosity = 0).
  { destruct H as [H | [H | [H | H]]]; try contradiction; rewrite H; unfold Rdiv; ring. }
  rewrite HRe. unfold friction_factor.
  destruct (Rle_dec 0 2040); [ | lra].
  now rewrite py_fdiv_zero.
Qed.

Lemma process_record_zero_field_witness :
  process_record 0.1 0 1000 0.001 0.05 = Raise ZeroDivisionError.
Proof. apply (process_record_zero_field 0.1 0 1000 0.001 0.05). right. now left. Defined.

(** ** The loop over the input lines *)

Lemma parse_fields_all (fields : list (option R)) (xs : list R) :
  parse_fields fields = Ok xs -> fields = map Some xs.
Proof.
  revert xs. induction fields as [ | [x | ] fields IH]; intros xs H; cbn [parse_fields] in H.
  - now injection H as <-.
  - destruct (parse_fields fields) as [ys | | ]; cbn [bind] in H; try discriminate.
    injection H as <-. cbn [map]. f_equal. now apply IH.
  - discriminate.
Qed.

Lemma parse_fields_rejected (fields : list (option R)) :
  In None fields -> parse_fields fields = Raise ValueError.
Proof.
  induction fields as [ | [x | ] fields IH]; intros H; cbn [parse_fields].
  - destruct H.
  - destruct H as [H | H]; [discriminate | ]. now rewrite IH.
  - reflexivity.
Qed.

Lemma parse_fields_length (fields : list (option R)) (xs : list R) :
  parse_fields fields = Ok xs -> length xs = length fields.
Proof.
  intros H. apply parse_fields_all in H. subst fields. now rewrite length_map.
Qed.

Lemma parse_fields_never_fuel (fields : list (option R)) :
  parse_fields fields <> OutOfFuel.
Proof.
  induction fields as [ | [x | ] fields IH]; cbn [parse_fields]; try discriminate.
  destruct (parse_fields fields); cbn [bind]; congruence.
Qed.

Lemma parse_fields_raises (fields : list (option R)) (e : exn) :
  parse_fields fields = Raise e -> e = ValueError.
Proof.
  induction fields as [ | [x | ] fields IH]; cbn [parse_fields]; intros H.
  - discriminate.
  - destruct (parse_fields fields) as [ys | e' | ]; cbn [bind] in H; try discriminate.
    injection H as <-. now apply IH.
  - now injection H as <-.
Qed.

(** X17: a line that does not consist of five fields that [float] accepts
    raises [ValueError]; the newline was already written, no point is
    appended and no row is written. *)
Theorem line_body_malformed (fields : list (option R)) (points : list (R * pynum))
    (out : list written) :
  In None fields \/ length fields <> 5%nat ->
  line_body fields (points, out) = ((points, out ++ [Newline]), Raise ValueError).
Proof.
  intros H. unfold line_body.
  destruct (parse_fields fields) as [xs | e | ] eqn:E; cbn [bind].
  - destruct H as [H | H]; [now rewrite parse_fields_rejected in E | ].
    apply parse_fields_length in E. rewrite <- E in H.
    destruct xs as [ | a [ | b [ | c [ | d [ | e [ | f xs]]]]]]; cbn [unpack_record];
      try reflexivity.
    now elim H.
  - now apply parse_fields_raises in E as ->.
  - now apply parse_fields_never_fuel in E.
Qed.

Lemma line_body_malformed_witness :
  line_body [] ([], [Header]) = (([], [Header] ++ [Newline]), Raise ValueError).
Proof. apply (line_body_malformed [] [] [Header]). right. cbn. lia. Defined.

(** With a nonzero diameter the last division of the pressure loss is
    defined. *)
Lemma pressure_loss_defined (a : pynum) (diameter : R) :
  diameter <> 0 ->
  exists p, py_div a (PFloat (2 * diameter)) = Ok p.
Proof.
  intros Hd. destruct a as [x | re im]; cbn [py_div re_part im_part].
  - rewrite py_fdiv_ok by lra. cbn [bind]. eauto.
  - destruct (Req_EM_T (2 * diameter * (2 * diameter) + 0 * 0) 0) as [E | _]; [ | eauto].
    exfalso. assert (0 < (2 * diameter) * (2 * diameter)) by nra. lra.
Qed.

(** A pass that raises has written only the newline; it has appended no
    point, unless it is [velocity**2] that raised, after the point of the
    line was appended. *)
Lemma line_body_failure (fields : list (option R)) (points : list (R * pynum))
    (out : list written) (st' : main_state) (e : exn) :
  line_body fields (points, out) = (st', Raise e) ->
  snd st' = out ++ [Newline] /\
  (fst st' = points \/ (e = OverflowError /\ exists pt, fst st' = points ++ [pt])).
Proof.
  unfold line_body.
  destruct (xs <- parse_fields fields ;; unpack_record xs)
    as [[[[[diameter velocity] density] viscosity] roughness] | e' | ];
    [ | intros H; injection H as <- _; now split; [ | left] | discriminate].
  destruct (py_fdiv (diameter * velocity * density) viscosity) as [Re | | ];
    cbn [bind]; [ | intros H; injection H as <- _; now split; [ | left] | discriminate].
  destruct (py_fdiv roughness 1000) as [r | | ];
    cbn [bind]; [ | intros H; injection H as <- _; now split; [ | left] | discriminate].
  destruct (py_fdiv r diameter) as [epsD | | ] eqn:Eeps;
    cbn [bind]; [ | intros H; injection H as <- _; now split; [ | left] | discriminate].
  apply py_fdiv_inv in Eeps as [Hd _].
  destruct (friction_factor Re epsD) as [Fd | | ];
    cbn [bind]; [ | intros H; injection H as <- _; now split; [ | left] | discriminate].
  rewrite py_pow_square.
  destruct (py_pow_range_cases (velocity * velocity)) as [[_ E] | [[_ E] | [_ E]]];
    rewrite E; cbn [bind].
  - intros H. injection H as <- <-. split; [reflexivity | ].
    right. split; [reflexivity | ]. now exists (Re, Fd).
  - destruct (pressure_loss_defined (py_mul Fd (py_mul (PFloat density) (PFloat 0)))
                diameter Hd) as [p ->].
    discriminate.
  - destruct (pressure_loss_defined
                (py_mul Fd (py_mul (PFloat density) (PFloat (velocity * velocity))))
                diameter Hd) as [p ->].
    discriminate.
Qed.

Lemma main_loop_app (l1 l2 : list (list (option R))) :
  forall st : main_state,
    main_loop (l1 ++ l2) st =
      match main_loop l1 st with
      | (st', Ok _) => main_loop l2 st'
      | (st', status) => (st', status)
      end.
Proof.
  induction l1 as [ | fields l1 IH]; intros st; cbn [app main_loop].
  - reflexivity.
  - destruct (line_body fields st) as [st' [[] | e | ]]; [apply IH | reflexivity ..].
Qed.

(** The pass for a line of five positive fields in the laminar regime. *)
Lemma line_body_laminar (diameter velocity density viscosity roughness : R)
    (points : list (R * pynum)) (out : list written) :
  0 < diameter -> 0 < velocity -> 0 < density -> 0 < viscosity ->
  diameter * velocity * density / viscosity <= 2040 ->
  in_pow_range (velocity * velocity) ->
  let Re := diameter * velocity * density / viscosity in
  line_body (map Some [diameter; velocity; density; viscosity; roughness]) (points, out)
  = ((points ++ [(Re, PFloat (64 / Re))],
      (out ++ [Newline])
      ++ [Row (PFloat (64 / Re))
              (PFloat (64 / Re * (density * (velocity * velocity)) / (2 * diameter)))]),
     Ok tt).
Proof.
  intros Hd Hv Hrho Hmu HRe Hr Re.
  assert (HRe0 : 0 < Re).
  { apply Rdiv_lt_0_compat; [ | assumption]. repeat apply Rmult_lt_0_compat; assumption. }
  unfold line_body. cbn [map parse_fields bind unpack_record].
  rewrite (py_fdiv_ok _ viscosity), (py_fdiv_ok _ 1000) by lra. cbn [bind].
  rewrite py_fdiv_ok by lra. cbn [bind]. fold Re.
  unfold friction_factor. destruct (Rle_dec Re 2040); [ | contradiction].
  rewrite py_fdiv_ok by lra. cbn [bind].
  rewrite py_pow_square, py_pow_range_ok by assumption. cbn [bind py_mul py_div].
  rewrite py_fdiv_ok by lra. cbn [bind]. reflexivity.
Qed.

(** The same line when [velocity**2] is too large for a float: the point
    has been appended when the exception is raised. *)
Lemma line_body_overflow (diameter velocity density viscosity roughness : R)
    (points : list (R * pynum)) (out : list written) :
  0 < diameter -> 0 < velocity -> 0 < density -> 0 < viscosity ->
  diameter * velocity * density / viscosity <= 2040 ->
  pow_overflow <= velocity * velocity ->
  let Re := diameter * velocity * density / viscosity in
  line_body (map Some [diameter; velocity; density; viscosity; roughness]) (points, out)
  = ((points ++ [(Re, PFloat (64 / Re))], out ++ [Newline]), Raise OverflowError).
Proof.
  intros Hd Hv Hrho Hmu HRe Hov Re.
  assert (HRe0 : 0 < Re).
  { apply Rdiv_lt_0_compat; [ | assumption]. repeat apply Rmult_lt_0_compat; assumption. }
  unfold line_body. cbn [map parse_fields bind unpack_record].
  rewrite (py_fdiv_ok _ viscosity), (py_fdiv_ok _ 1000) by lra. cbn [bind].
  rewrite py_fdiv_ok by lra. cbn [bind]. fold Re.
  unfold friction_factor. destruct (Rle_dec Re 2040); [ | contradiction].
  rewrite py_fdiv_ok by lra. cbn [bind].
  rewrite py_pow_square, py_pow_range_overflow; [reflexivity | ].
  rewrite Rabs_pos_eq by nra. exact Hov.
Qed.

(** X18: the first line whose pass raises ends the loop over the input: the
    lines after it are not read, the output ends with the newline of the
    failing line, and the points of the lines before it are kept.  The
    failing line itself adds no point, except when the exception is the
    [OverflowError] of [velocity**2], which is raised after the point of the
    line was appended. *)
Theorem main_loop_stops_at_failure (good rest : list (list (option R)))
    (bad : list (option R)) (st st2 : main_state) (points : list (R * pynum))
    (out : list written) (e : exn) :
  main_loop good st = ((points, out), Ok tt) ->
  line_body bad (points, out) = (st2, Raise e) ->
  main_loop (good ++ bad :: rest) st = (st2, Raise e) /\
  snd st2 = out ++ [Newline] /\
  (fst st2 = points \/ (e = OverflowError /\ exists pt, fst st2 = points ++ [pt])).
Proof.
  intros Hgood Hbad. split.
  - rewrite main_loop_app, Hgood. cbn [main_loop]. now rewrite Hbad.
  - now apply line_body_failure in Hbad.
Qed.

Lemma laminar_sample_range : in_pow_range (0.02 * 0.02).
Proof.
  apply square_in_range. rewrite Rabs_pos_eq by lra.
  assert (10 ^ 2 <= 10 ^ 150) by (apply Rle_pow; [lra | lia]).
  assert (/ 10 ^ 150 <= / 10 ^ 2) by (apply Rinv_le_contravar; lra).
  lra.
Qed.

Lemma main_loop_stops_at_failure_witness :
  let good := [map Some [0.1; 0.02; 1000; 0.001; 0.05]] in
  let bad := map Some [1; 10 ^ 200; 1; 10 ^ 200; 0.05] in
  let p1 := (0.1 * 0.02 * 1000 / 0.001, PFloat (64 / (0.1 * 0.02 * 1000 / 0.001))) in
  let o1 := ([Header] ++ [Newline])
            ++ [Row (PFloat (64 / (0.1 * 0.02 * 1000 / 0.001)))
                    (PFloat (64 / (0.1 * 0.02 * 1000 / 0.001)
                             * (1000 * (0.02 * 0.02)) / (2 * 0.1)))] in
  let p2 := (1 * 10 ^ 200 * 1 / 10 ^ 200, PFloat (64 / (1 * 10 ^ 200 * 1 / 10 ^ 200))) in
  main_loop (good ++ bad :: [[]]) ([], [Header])
  = ((([] ++ [p1]) ++ [p2], o1 ++ [Newline]), Raise OverflowError).
Proof.
  intros good bad p1 o1 p2.
  assert (H200 : 0 < 10 ^ 200) by (apply pow_lt; lra).
  assert (HRe : 1 * 10 ^ 200 * 1 / 10 ^ 200 <= 2040).
  { replace (1 * 10 ^ 200 * 1 / 10 ^ 200) with 1 by (field; lra). lra. }
  apply (main_loop_stops_at_failure good [[]] bad ([], [Header])
           (([] ++ [p1]) ++ [p2], o1 ++ [Newline]) ([] ++ [p1]) o1 OverflowError).
  - unfold good. cbn [main_loop].
    rewrite (line_body_laminar 0.1 0.02 1000 0.001 0.05 [] [Header])
      by (lra || exact laminar_sample_range).
    reflexivity.
  - unfold bad.
    apply (line_body_overflow 1 (10 ^ 200) 1 (10 ^ 200) 0.05 ([] ++ [p1]) o1);
      try lra; try assumption.
    exact square_overflow.
Defined.




(** ** The chain of solves in [moody] *)

(** X20: the warm start inside a curve.  In a run of the two loops that
    returns, the value stored for sample [i + 1] of a curve is the root
    [newton] returns when seeded with the value stored for sample [i] of the
    same curve. *)
Theorem moody_warm_start (epsDs Re_range : list R) (M : matrix) (g : pynum)
    (j i : nat) :
  turbulent_data epsDs Re_range = Ok (M, g) ->
  (j < length epsDs)%nat -> (S i < length Re_range)%nat ->
  exists k, newton (PFloat (cell M i j)) (nth (S i) Re_range 0) (nth j epsDs 0)
                   default_maxiter default_tol
            = Ok (PFloat (cell M (S i) j), k).
Proof. intros H. now apply (proj1 (turbulent_chain epsDs Re_range M g H)). Qed.

(** X21: the first solve of a run, first sample of the first curve, is
    seeded with [0.01]. *)
Theorem moody_first_solve (epsDs Re_range : list R) (M : matrix) (g : pynum) :
  turbulent_data epsDs Re_range = Ok (M, g) ->
  (0 < length epsDs)%nat -> (0 < length Re_range)%nat ->
  exists k, newton (PFloat 0.01) (nth 0 Re_range 0) (nth 0 epsDs 0)
                   default_maxiter default_tol
            = Ok (PFloat (cell M 0 0), k).
Proof. intros H. now apply (proj1 (proj2 (turbulent_chain epsDs Re_range M g H))). Qed.

(** X22: the guess is carried from one curve into the next.  The first
    sample of curve [j + 1] is the root [newton] returns when seeded with the
    value stored for the last sample of curve [j], not with [0.01]. *)
Theorem moody_guess_carried_over (epsDs Re_range : list R) (M : matrix) (g : pynum)
    (j : nat) :
  turbulent_data epsDs Re_range = Ok (M, g) ->
  (S j < length epsDs)%nat -> (0 < length Re_range)%nat ->
  exists k, newton (PFloat (cell M (length Re_range - 1) j))
                   (nth 0 Re_range 0) (nth (S j) epsDs 0)
                   default_maxiter default_tol
            = Ok (PFloat (cell M 0 (S j)), k).
Proof. intros H. now apply (proj2 (proj2 (turbulent_chain epsDs Re_range M g H))). Qed.

(** Two runs that can be evaluated: at [Re = 2510000] and [epsD = 0] every
    solve starts on the root [0.01] and returns it. *)
Lemma two_sample_run :
  exists M, turbulent_data [0] [2510000; 2510000] = Ok (M, PFloat 0.01) /\
            cell M 0 0 = 0.01 /\ cell M 1 0 = 0.01.
Proof.
  unfold turbulent_data. cbn [curves_loop curve_loop length].
  unfold newton_root. rewrite smooth_curve_alone. cbn [bind fst snd].
  unfold mat_store, np_zeros. cbn [rows cols Nat.ltb Nat.leb andb bind fst snd cell].
  rewrite smooth_curve_alone. cbn [bind fst snd rows cols Nat.ltb Nat.leb andb cell].
  eexists. split; [reflexivity | ]. cbn [cell Nat.eqb andb]. now split.
Qed.

Lemma two_curve_run :
  exists M, turbulent_data [0; 0] [2510000] = Ok (M, PFloat 0.01) /\
            cell M 0 0 = 0.01 /\ cell M 0 1 = 0.01.
Proof.
  unfold turbulent_data. cbn [curves_loop curve_loop length].
  unfold newton_root. rewrite smooth_curve_alone. cbn [bind fst snd].
  unfold mat_store, np_zeros. cbn [rows cols Nat.ltb Nat.leb andb bind fst snd cell].
  rewrite smooth_curve_alone. cbn [bind fst snd rows cols Nat.ltb Nat.leb andb cell].
  eexists. split; [reflexivity | ]. cbn [cell Nat.eqb andb]. now split.
Qed.

Lemma moody_warm_start_witness :
  exists k, newton (PFloat 0.01) 2510000 0 default_maxiter default_tol
            = Ok (PFloat 0.01, k).
Proof.
  destruct two_sample_run as (M & HM & H0 & H1).
  destruct (moody_warm_start [0] [2510000; 2510000] M (PFloat 0.01) 0 0 HM) as [k Hk];
    [cbn; lia | cbn; lia | ].
  cbn [nth] in Hk. rewrite H0, H1 in Hk. now exists k.
Defined.

Lemma moody_first_solve_witness :
  exists k, newton (PFloat 0.01) 2510000 0 default_maxiter default_tol
            = Ok (PFloat 0.01, k).
Proof.
  destruct two_curve_run as (M & HM & H0 & H1).
  destruct (moody_first_solve [0; 0] [2510000] M (PFloat 0.01) HM) as [k Hk];
    [cbn; lia | cbn; lia | ].
  cbn [nth] in Hk. rewrite H0 in Hk. now exists k.
Defined.

Lemma moody_guess_carried_over_witness :
  exists k, newton (PFloat 0.01) 2510000 0 default_maxiter default_tol
            = Ok (PFloat 0.01, k).
Proof.
  destruct two_curve_run as (M & HM & H0 & H1).
  destruct (moody_guess_carried_over [0; 0] [2510000] M (PFloat 0.01) 0 HM) as [k Hk];
    [cbn; lia | cbn; lia | ].
  cbn [nth length Nat.sub] in Hk. rewrite H0, H1 in Hk. now exists k.
Defined.

(** ** The data of [moody] *)

(** X23: the grid of Reynolds numbers of [moody] has [50000] samples, and
    sample [k] is [2000 * (k + 1)]: the step of the [np.linspace] call is
    exactly [2000], from [2000] up to [1e8]. *)
Theorem Re_range_samples :
  length Re_range = dataPointNum /\
  forall k, (k < dataPointNum)%nat -> nth k Re_range 0 = 2000 * (INR k + 1).
Proof.
  unfold Re_range, np_linspace. split; [now rewrite length_map, length_seq | ].
  intros k Hk.
  set (f := fun k => 2000 + INR k * ((10 ^ 8 - 2000) / INR (dataPointNum - 1))).
  rewrite (nth_indep _ 0 (f 0%nat)) by (rewrite length_map, length_seq; exact Hk).
  rewrite map_nth, seq_nth by exact Hk. unfold f, dataPointNum. cbn [Nat.add].
  rewrite (INR_IZR_INZ (Z.to_nat 50000 - 1)).
  replace (Z.of_nat (Z.to_nat 50000 - 1)) with 49999%Z by lia.
  lra.
Qed.

(** X24: the laminar friction factors of [moody] lie in [(0, 0.128]], and
    [0.128 = 64/500] is the first of them, the one [plt.ylim] takes as the
    top of the diagram; there are [2000] of them. *)
Theorem laminar_values_below_the_first :
  exists (laminarReVals : list Z) (laminarFdVals : list R),
    laminar = Ok (laminarReVals, laminarFdVals) /\
    length laminarFdVals = 2000%nat /\
    nth 0 laminarFdVals 0 = 0.128 /\
    forall x, In x laminarFdVals -> 0 < x <= 0.128.
Proof.
  exists (py_range 500 2500), (map (fun Re => 64 / IZR Re) (py_range 500 2500)).
  split; [ | split; [ | split]].
  - unfold laminar. rewrite laminar_loop_spec; [reflexivity | ].
    apply Forall_forall. intros Re HRe. apply in_py_range in HRe. lia.
  - unfold py_range. rewrite !length_map, length_seq. reflexivity.
  - unfold py_range.
    replace (Z.to_nat (2500 - 500)) with (S (Z.to_nat 1999)) by lia.
    cbn [seq map nth]. replace (500 + Z.of_nat 0)%Z with 500%Z by lia. lra.
  - intros x Hx. apply in_map_iff in Hx as (Re & <- & HRe).
    apply in_py_range in HRe.
    assert (H1 : 500 <= IZR Re) by (apply IZR_le; lia).
    split; [apply Rdiv_lt_0_compat; lra | ].
    apply (Rmult_le_reg_r (IZR Re)); [lra | ].
    unfold Rdiv. rewrite Rmult_assoc, Rinv_l by lra. lra.
Qed.

(** ** Small budgets and negative guesses *)

(** X26: with a budget [maxiter <= 1] the non-convergence exception is never
    raised, whatever the other arguments are. *)
Theorem newton_small_budget_never_root_not_found (x0 : pynum) (Re epsD : R)
    (maxiter : Z) (tol : R) :
  (maxiter <= 1)%Z ->
  newton x0 Re epsD maxiter tol <> Raise RootNotFound.
Proof.
  intros Hm. destruct (Z.eq_dec maxiter 1) as [-> | Hne].
  - apply newton_maxiter_1_never_root_not_found.
  - unfold newton. destruct x0 as [x | re im]; cbn [py_fabs bind]; [ | discriminate].
    rewrite newton_loop_exit by lia. discriminate.
Qed.

Lemma newton_small_budget_never_root_not_found_witness :
  newton (PFloat 1000) 1e5 0.001 1 1e-9 <> Raise RootNotFound.
Proof.
  apply (newton_small_budget_never_root_not_found (PFloat 1000) 1e5 0.001 1 1e-9). lia.
Defined.





Lemma Re_range_samples_witness : nth 1254 Re_range 0 = 2000 * (INR 1254 + 1).
Proof.
  apply (proj2 Re_range_samples 1254%nat). unfold dataPointNum. lia.
Defined.
